(** * NeuroDrive: track geometry, sensing and kinematics

    A shallow embedding of the track core of NeuroDrive:
    - [maps/parts/mod.rs]   : the tile model ([TilePart], [open_edges]);
    - [maps/grid.rs]        : the grid, [tile_at], [cell_center],
                              [world_to_cell], [is_road_at], [find_spawn];
    - [maps/centerline.rs]  : [traverse_cells], [build_closed_loop],
                              [project], [compute_lengths];
    - [agent/observation.rs]: [raycast_to_road_boundary], [wrap_angle],
                              [signed_angle_between];
    - [game/physics.rs]     : [step_car_dynamics].

    Cell indices ([usize]) are [nat].  The geometric code computes in [f32];
    it is modelled over the real numbers [R] (exact arithmetic), except the
    kinematics stepper, which is written over an abstract arithmetic
    interface so that statements about it hold for any deterministic
    implementation of the primitive operations, IEEE [f32] included. *)

From Stdlib Require Import List Bool Arith ZArith Lia Reals Lra.
Import ListNotations.

Open Scope R_scope.

(* ------------------------------------------------------------------ *)
(** ** Tiles ([maps/parts/mod.rs]) *)

Inductive TilePart :=
| Empty | StraightH | StraightV
| CornerNW | CornerNE | CornerSW | CornerSE
| TJunctionN | TJunctionS | TJunctionE | TJunctionW
| Crossroads | SpawnPoint.

Definition TilePart_eqb (a b : TilePart) : bool :=
  match a, b with
  | Empty, Empty | StraightH, StraightH | StraightV, StraightV
  | CornerNW, CornerNW | CornerNE, CornerNE | CornerSW, CornerSW
  | CornerSE, CornerSE | TJunctionN, TJunctionN | TJunctionS, TJunctionS
  | TJunctionE, TJunctionE | TJunctionW, TJunctionW
  | Crossroads, Crossroads | SpawnPoint, SpawnPoint => true
  | _, _ => false
  end.

Lemma TilePart_eqb_eq a b : TilePart_eqb a b = true <-> a = b.
Proof. destruct a, b; simpl; split; congruence. Qed.

Definition is_road (t : TilePart) : bool :=
  match t with Empty => false | _ => true end.

(** [(north, south, east, west)] *)
Definition open_edges (t : TilePart) : bool * bool * bool * bool :=
  match t with
  | Empty      => (false, false, false, false)
  | StraightH  => (false, false, true,  true )
  | SpawnPoint => (false, false, true,  true )
  | StraightV  => (true,  true,  false, false)
  | CornerNW   => (false, true,  true,  false)
  | CornerNE   => (false, true,  false, true )
  | CornerSW   => (true,  false, true,  false)
  | CornerSE   => (true,  false, false, true )
  | TJunctionN => (false, true,  true,  true )
  | TJunctionS => (true,  false, true,  true )
  | TJunctionE => (true,  true,  false, true )
  | TJunctionW => (true,  true,  true,  false)
  | Crossroads => (true,  true,  true,  true )
  end.

Definition open_n (t : TilePart) : bool := let '(n, _, _, _) := open_edges t in n.
Definition open_s (t : TilePart) : bool := let '(_, s, _, _) := open_edges t in s.
Definition open_e (t : TilePart) : bool := let '(_, _, e, _) := open_edges t in e.
Definition open_w (t : TilePart) : bool := let '(_, _, _, w) := open_edges t in w.

Definition is_corner (t : TilePart) : bool :=
  match t with CornerNW | CornerNE | CornerSW | CornerSE => true | _ => false end.

(* ------------------------------------------------------------------ *)
(** ** Vectors (glam [Vec2]) *)

Record Vec2 := mkVec2 { vx : R; vy : R }.

Definition vzero : Vec2 := mkVec2 0 0.
Definition vadd (a b : Vec2) : Vec2 := mkVec2 (vx a + vx b) (vy a + vy b).
Definition vsub (a b : Vec2) : Vec2 := mkVec2 (vx a - vx b) (vy a - vy b).
Definition vscale (a : Vec2) (k : R) : Vec2 := mkVec2 (vx a * k) (vy a * k).
Definition vdot (a b : Vec2) : R := vx a * vx b + vy a * vy b.
Definition length_squared (a : Vec2) : R := vdot a a.
Definition vlength (a : Vec2) : R := sqrt (length_squared a).
(** [a.distance(b)] is [(a - b).length()]. *)
Definition vdistance (a b : Vec2) : R := vlength (vsub a b).

(* ------------------------------------------------------------------ *)
(** ** The grid ([maps/grid.rs]) *)

(** [WALL_THICKNESS = 5.0]. *)
Definition WALL_THICKNESS : R := 5.

Record TrackGrid := mkGrid {
  tiles : list (list TilePart);
  tile_size : R;
  origin : Vec2
}.

Definition rows (g : TrackGrid) : nat := length (tiles g).

Definition cols (g : TrackGrid) : nat :=
  match tiles g with [] => 0%nat | r :: _ => length r end.

(** [tiles.get(row).and_then(|r| r.get(col)).copied().unwrap_or(Empty)] *)
Definition tile_at (g : TrackGrid) (row col : nat) : TilePart :=
  match nth_error (tiles g) row with
  | Some r => match nth_error r col with Some t => t | None => Empty end
  | None => Empty
  end.

Definition cell_center (g : TrackGrid) (row col : nat) : Vec2 :=
  mkVec2 (vx (origin g) + INR col * tile_size g + tile_size g * 0.5)
         (vy (origin g) - INR row * tile_size g - tile_size g * 0.5).

(* ------------------------------------------------------------------ *)
(** ** Grid traversal ([maps/centerline.rs]) *)

Inductive GridDir := North | South | East | West.

Definition GridDir_eqb (a b : GridDir) : bool :=
  match a, b with
  | North, North | South, South | East, East | West, West => true
  | _, _ => false
  end.

Definition opposite (d : GridDir) : GridDir :=
  match d with North => South | South => North | East => West | West => East end.

(** [(d_row, d_col)] *)
Definition delta (d : GridDir) : Z * Z :=
  match d with
  | North => (-1, 0)%Z | South => (1, 0)%Z | East => (0, 1)%Z | West => (0, -1)%Z
  end.

Inductive CenterlineBuildError :=
| InvalidStartCell (row col : nat)
| DeadEnd (row col : nat)
| AmbiguousBranch (row col : nat) (options : list GridDir)
| NotClosedLoop
| TooShort.

Inductive result (A E : Type) := Ok (a : A) | Err (e : E).
Arguments Ok {A E} a.
Arguments Err {A E} e.

Definition cell_eqb (a b : nat * nat) : bool :=
  Nat.eqb (fst a) (fst b) && Nat.eqb (snd a) (snd b).

(** [usize::checked_add_signed]: [None] below zero. *)
Definition checked_add_signed (n : nat) (d : Z) : option nat :=
  let z := (Z.of_nat n + d)%Z in
  if (z <? 0)%Z then None else Some (Z.to_nat z).

Definition step_cell (cell : nat * nat) (dir : GridDir) : option (nat * nat) :=
  let '(row, col) := cell in
  let '(dr, dc) := delta dir in
  match checked_add_signed row dr with
  | None => None
  | Some next_row =>
      match checked_add_signed col dc with
      | None => None
      | Some next_col => Some (next_row, next_col)
      end
  end.

Definition choose_next_dir (g : TrackGrid) (cell : nat * nat) (incoming : GridDir)
  : result GridDir CenterlineBuildError :=
  let tile := tile_at g (fst cell) (snd cell) in
  let '(on, os, oe, ow) := open_edges tile in
  let options :=
    (if on then [North] else []) ++ (if os then [South] else []) ++
    (if oe then [East] else []) ++ (if ow then [West] else []) in
  (* Avoid immediately returning to the cell we just came from. *)
  let options := filter (fun d => negb (GridDir_eqb d incoming)) options in
  match options with
  | [only] => Ok only
  | [] => Err (DeadEnd (fst cell) (snd cell))
  | many => Err (AmbiguousBranch (fst cell) (snd cell) many)
  end.

(** The body of the [loop] in [traverse_cells].  The accumulated state is
    [(cells, dirs, visited, current, incoming)]; the vectors are kept in
    push order.  [inl] continues the loop, [inr] leaves it (with [break] or
    an early [return]). *)
Definition traverse_state : Type :=
  (list (nat * nat) * list GridDir * list (nat * nat) * (nat * nat) * GridDir)%type.

Definition traverse_body (g : TrackGrid) (start_cell : nat * nat) (start_dir : GridDir)
  (st : traverse_state)
  : traverse_state + result (list (nat * nat) * list GridDir) CenterlineBuildError :=
  let '(cells, dirs, visited, current, incoming) := st in
  let next_dir :=
    if cell_eqb current start_cell && (match dirs with [] => true | _ => false end)
    then Ok start_dir
    else choose_next_dir g current incoming in
  match next_dir with
  | Err e => inr (Err e)
  | Ok next_dir =>
      match step_cell current next_dir with
      | None => inr (Err (DeadEnd (fst current) (snd current)))
      | Some next =>
          let dirs := dirs ++ [next_dir] in
          if cell_eqb next start_cell then inr (Ok (cells, dirs))
          else if existsb (cell_eqb next) visited then inr (Err NotClosedLoop)
          else
            let visited := next :: visited in
            if TilePart_eqb (tile_at g (fst next) (snd next)) Empty
            then inr (Err (DeadEnd (fst current) (snd current)))
            else inl (cells ++ [next], dirs, visited, next, opposite next_dir)
      end
  end.

(** Every iteration that continues adds a fresh non-[Empty] cell to
    [visited]; such cells lie in the grid, so the loop runs at most
    (number of tiles + 1) times.  [fuel] is that bound; running out of it is
    unreachable and is reported as [NotClosedLoop]. *)
Fixpoint traverse_loop (g : TrackGrid) (start_cell : nat * nat) (start_dir : GridDir)
  (fuel : nat) (st : traverse_state) : result (list (nat * nat) * list GridDir) CenterlineBuildError :=
  match fuel with
  | O => Err NotClosedLoop
  | S fuel =>
      match traverse_body g start_cell start_dir st with
      | inl st' => traverse_loop g start_cell start_dir fuel st'
      | inr r => r
      end
  end.

Definition tile_count (g : TrackGrid) : nat :=
  fold_right (fun r acc => length r + acc)%nat 0%nat (tiles g).

Definition traverse_cells (g : TrackGrid) (start_cell : nat * nat) (start_dir : GridDir)
  : result (list (nat * nat) * list GridDir) CenterlineBuildError :=
  let '(start_row, start_col) := start_cell in
  if TilePart_eqb (tile_at g start_row start_col) Empty
  then Err (InvalidStartCell start_row start_col)
  else traverse_loop g start_cell start_dir (S (S (tile_count g)))
         ([start_cell], [], [start_cell], start_cell, opposite start_dir).

(* ------------------------------------------------------------------ *)
(** ** Polyline synthesis ([build_polyline_points] and helpers) *)

(** [f32::atan2] (the principal value, in [(-PI, PI]]). *)
Definition atan2 (y x : R) : R :=
  if Rlt_dec 0 x then atan (y / x)
  else if Rlt_dec x 0 then
    (if Rle_dec 0 y then atan (y / x) + PI else atan (y / x) - PI)
  else if Rlt_dec 0 y then PI / 2
  else if Rlt_dec y 0 then - (PI / 2)
  else 0.

(** [CENTERLINE_ARC_SAMPLES = 8] *)
Definition CENTERLINE_ARC_SAMPLES : nat := 8.

(** Enough iterations for a [while] loop that moves an angle by [2 PI]
    each time until it lies in a window of width [2 PI]. *)
Definition angle_fuel (a : R) : nat := S (Z.to_nat (up (Rabs a / (2 * PI)))).

(** [while a <= -PI { a += 2.0 * PI; }] *)
Fixpoint wrap_to_pi_up (fuel : nat) (a : R) : R :=
  match fuel with
  | O => a
  | S f => if Rle_dec a (- PI) then wrap_to_pi_up f (a + 2 * PI) else a
  end.

(** [while a > PI { a -= 2.0 * PI; }] *)
Fixpoint wrap_to_pi_down (fuel : nat) (a : R) : R :=
  match fuel with
  | O => a
  | S f => if Rlt_dec PI a then wrap_to_pi_down f (a - 2 * PI) else a
  end.

Definition wrap_to_pi (a : R) : R :=
  let a := wrap_to_pi_up (angle_fuel a) a in
  wrap_to_pi_down (angle_fuel a) a.

Definition last_point (points : list Vec2) : option Vec2 :=
  match rev points with [] => None | p :: _ => Some p end.

(** [push_unique]: the vector is kept in push order. *)
Definition push_unique (points : list Vec2) (p : Vec2) : list Vec2 :=
  match last_point points with
  | Some last => if Rlt_dec (vdistance last p) (1 / 1000) then points else points ++ [p]
  | None => points ++ [p]
  end.

Definition dir_unit (d : GridDir) : Vec2 :=
  match d with
  | North => mkVec2 0 1
  | South => mkVec2 0 (-1)
  | East => mkVec2 1 0
  | West => mkVec2 (-1) 0
  end.

Definition push_corner_arc_samples (points : list Vec2) (center : Vec2) (radius : R)
  (entry exit : Vec2) : list Vec2 :=
  let a0 := atan2 (vy (vsub entry center)) (vx (vsub entry center)) in
  let a1 := atan2 (vy (vsub exit center)) (vx (vsub exit center)) in
  let delta := wrap_to_pi (a1 - a0) in
  (* Exclude the first point (already pushed) and include the final exit point. *)
  fold_left
    (fun pts i =>
       let t := INR i / INR CENTERLINE_ARC_SAMPLES in
       let a := a0 + delta * t in
       push_unique pts (vadd center (vscale (mkVec2 (cos a) (sin a)) radius)))
    (seq 1 CENTERLINE_ARC_SAMPLES) points.

Definition corner_arc_center (tile : TilePart) (cell_center : Vec2) (half : R) : Vec2 :=
  let cx := vx cell_center in
  let cy := vy cell_center in
  match tile with
  | CornerNW => mkVec2 (cx + half) (cy - half)
  | CornerNE => mkVec2 (cx - half) (cy - half)
  | CornerSW => mkVec2 (cx + half) (cy + half)
  | CornerSE => mkVec2 (cx - half) (cy + half)
  | _ => cell_center
  end.

(** [cells] and [dirs] come from [traverse_cells] and have equal lengths, so
    the indexing [dirs[n - 1]] and [dirs[i - 1]] stays in bounds; [nth]'s
    default is never used. *)
Definition build_polyline_points (g : TrackGrid) (cells : list (nat * nat))
  (dirs : list GridDir) : list Vec2 :=
  let half := tile_size g * 0.5 in
  let n := length cells in
  match n with
  | O => []
  | S _ =>
      let points :=
        fold_left
          (fun points i =>
             let cell := nth i cells (0, 0)%nat in
             let tile := tile_at g (fst cell) (snd cell) in
             let center := cell_center g (fst cell) (snd cell) in
             let prev_dir := if Nat.eqb i 0 then nth (n - 1) dirs North
                             else nth (i - 1) dirs North in
             let entry_dir := opposite prev_dir in
             let exit_dir := nth i dirs North in
             let entry := vadd center (vscale (dir_unit entry_dir) half) in
             let exit := vadd center (vscale (dir_unit exit_dir) half) in
             let points := push_unique points entry in
             if is_corner tile then
               push_corner_arc_samples points (corner_arc_center tile center half) half entry exit
             else push_unique points exit)
          (seq 0 n) [] in
      (* Close the loop if needed (avoid duplicating the first point). *)
      match points, last_point points with
      | first :: _, Some last =>
          if Rlt_dec (vdistance last first) (1 / 1000) then removelast points else points
      | _, _ => points
      end
  end.

(* ------------------------------------------------------------------ *)
(** ** The centreline ([TrackCenterline]) *)

Record TrackCenterline := mkCenterline {
  points : list Vec2;
  cumulative_lengths : list R;
  total_length : R
}.

(** [compute_lengths]: [cumulative[i]] is the running total before segment
    [i]; the segment from [points[i]] to [points[(i + 1) % n]] is then added. *)
Definition compute_lengths (pts : list Vec2) : list R * R :=
  let n := length pts in
  fold_left
    (fun '(cumulative, total) i =>
       let a := nth i pts vzero in
       let b := nth (Nat.modulo (i + 1) n) pts vzero in
       (cumulative ++ [total], total + vdistance a b))
    (seq 0 n) ([], 0).

Definition build_closed_loop (g : TrackGrid) (start_cell : nat * nat) (start_dir : GridDir)
  : result TrackCenterline CenterlineBuildError :=
  match traverse_cells g start_cell start_dir with
  | Err e => Err e
  | Ok (cells, dirs) =>
      let points := build_polyline_points g cells dirs in
      if Nat.ltb (length points) 3 then Err TooShort
      else
        let '(cumulative_lengths, total_length) := compute_lengths points in
        Ok (mkCenterline points cumulative_lengths total_length)
  end.

(* ------------------------------------------------------------------ *)
(** ** Road membership and spawn lookup ([TrackGrid]) *)

(** [(x / tile_size) as usize] for the non-negative [x] of [world_to_cell]:
    truncation, i.e. the floor.  (A negative quotient, possible only when
    [tile_size < 0], saturates to [0] in Rust and here.) *)
Definition as_usize (x : R) : nat := Z.to_nat (Int_part x).

Definition world_to_cell (g : TrackGrid) (world : Vec2) : option (nat * nat) :=
  let rel_x := vx world - vx (origin g) in
  let rel_y := vy (origin g) - vy world in (* Y increases downward in row space *)
  if Rlt_dec rel_x 0 then None
  else if Rlt_dec rel_y 0 then None
  else
    let col := as_usize (rel_x / tile_size g) in
    let row := as_usize (rel_y / tile_size g) in
    if Nat.leb (rows g) row || Nat.leb (cols g) col then None
    else Some (row, col).

(** [corner_arc_params] returns [(arc_center, start_deg, end_deg)]; the
    non-corner arm is [unreachable!] (the caller tests [is_corner] first)
    and is given the cell centre here. *)
Definition corner_arc_params (tile : TilePart) (cell_center : Vec2) (half : R) : Vec2 * R * R :=
  let cx := vx cell_center in
  let cy := vy cell_center in
  match tile with
  | CornerNW => (mkVec2 (cx + half) (cy - half), 90, 180)
  | CornerNE => (mkVec2 (cx - half) (cy - half), 0, 90)
  | CornerSW => (mkVec2 (cx + half) (cy + half), 180, 270)
  | CornerSE => (mkVec2 (cx - half) (cy + half), 270, 360)
  | _ => (cell_center, 0, 0)
  end.

(** The part of [is_road_at] after the cell lookup. *)
Definition is_road_in_cell (g : TrackGrid) (row col : nat) (world : Vec2) : bool :=
  let tile := tile_at g row col in
  if negb (is_road tile) then false
  else
    let center := cell_center g row col in
    let half := tile_size g * 0.5 in
    let margin := WALL_THICKNESS * 0.5 in
    if is_corner tile then
      let '(arc_center, _, _) := corner_arc_params tile center half in
      if Rle_dec (vdistance world arc_center) (tile_size g - margin) then true else false
    else
      let '(on, os, oe, ow) := open_edges tile in
      if negb on && (if Rlt_dec (vy center + half - margin) (vy world) then true else false)
      then false
      else if negb os && (if Rlt_dec (vy world) (vy center - half + margin) then true else false)
      then false
      else if negb oe && (if Rlt_dec (vx center + half - margin) (vx world) then true else false)
      then false
      else if negb ow && (if Rlt_dec (vx world) (vx center - half + margin) then true else false)
      then false
      else true.

Definition is_road_at (g : TrackGrid) (world : Vec2) : bool :=
  match world_to_cell g world with
  | None => false
  | Some (row, col) => is_road_in_cell g row col world
  end.

Fixpoint find_in_row (row_tiles : list TilePart) (col : nat) : option nat :=
  match row_tiles with
  | [] => None
  | t :: rest => if TilePart_eqb t SpawnPoint then Some col else find_in_row rest (S col)
  end.

Fixpoint find_in_rows (rs : list (list TilePart)) (row : nat) : option (nat * nat) :=
  match rs with
  | [] => None
  | row_tiles :: rest =>
      match find_in_row row_tiles 0 with
      | Some col => Some (row, col)
      | None => find_in_rows rest (S row)
      end
  end.

(** The nested [for (row, row_tiles) in tiles.iter().enumerate()] /
    [for (col, &tile) in row_tiles.iter().enumerate()] scan. *)
Definition find_spawn_cell (g : TrackGrid) : option (nat * nat) := find_in_rows (tiles g) 0.

Definition find_spawn (g : TrackGrid) : option (Vec2 * R) :=
  match find_spawn_cell g with
  | None => None
  | Some (row, col) => Some (cell_center g row col, 0)
  end.

(* ------------------------------------------------------------------ *)
(** ** Projection onto the centreline ([TrackCenterline::project]) *)

(** [f32::clamp] : [if x < min { x = min; } if x > max { x = max; } x] *)
Definition clamp (x lo hi : R) : R :=
  let x := if Rlt_dec x lo then lo else x in
  if Rlt_dec hi x then hi else x.

(** [distance] is an [f32] that starts at [f32::INFINITY]; [None] stands for
    that infinity. *)
Record CenterlineProjection := mkProjection {
  closest_point : Vec2;
  tangent : Vec2;
  s : R;
  fraction : R;
  distance : option R
}.

(** [dist < best.distance] *)
Definition lt_distance (d : R) (best : option R) : bool :=
  match best with
  | None => true
  | Some b => if Rlt_dec d b then true else false
  end.

Section Segment.
Variables (cl : TrackCenterline) (world : Vec2) (i : nat).

Definition seg_a : Vec2 := nth i (points cl) vzero.
Definition seg_b : Vec2 := nth (Nat.modulo (i + 1) (length (points cl))) (points cl) vzero.
Definition seg_d : Vec2 := vsub seg_b seg_a.
Definition seg_len2 : R := length_squared seg_d.
(** [len2 <= 1e-8]: the segment is skipped. *)
Definition seg_degenerate : bool := if Rle_dec seg_len2 (1 / 100000000) then true else false.
Definition seg_t : R := clamp (vdot (vsub world seg_a) seg_d / seg_len2) 0 1.
Definition seg_p : Vec2 := vadd seg_a (vscale seg_d seg_t).
Definition seg_dist : R := vdistance world seg_p.

(** The value [best] takes when segment [i] wins. *)
Definition seg_candidate : CenterlineProjection :=
  let seg_len := sqrt seg_len2 in
  let s := nth i (cumulative_lengths cl) 0 + seg_len * seg_t in
  mkProjection seg_p (mkVec2 (vx seg_d / seg_len) (vy seg_d / seg_len)) s
    (clamp (s / total_length cl) 0 1) (Some seg_dist).
End Segment.

(** One iteration of [for i in 0..n]. *)
Definition project_step (cl : TrackCenterline) (world : Vec2)
  (best : CenterlineProjection) (i : nat) : CenterlineProjection :=
  if seg_degenerate cl i then best
  else if lt_distance (seg_dist cl world i) (distance best) then seg_candidate cl world i
  else best.

(** [self.points[0]] panics on an empty polyline ([debug_assert!(n >= 2)]);
    [nth]'s default stands for that case. *)
Definition project_init (cl : TrackCenterline) : CenterlineProjection :=
  mkProjection (nth 0 (points cl) vzero) (mkVec2 1 0) 0 0 None.

Definition project (cl : TrackCenterline) (world : Vec2) : CenterlineProjection :=
  fold_left (project_step cl world) (seq 0 (length (points cl))) (project_init cl).

(* ------------------------------------------------------------------ *)
(** ** Raycast sensor ([agent/observation.rs]) *)

(** glam [normalize_or_zero]: [self * (1 / length)] when the reciprocal is
    finite and positive, else [ZERO]. *)
Definition normalize_or_zero (v : Vec2) : Vec2 :=
  let len := vlength v in
  if Rlt_dec 0 len then vscale v (1 / len) else vzero.

(** [v == Vec2::ZERO] *)
Definition is_zero_vec (v : Vec2) : bool :=
  if Req_dec_T (vx v) 0 then (if Req_dec_T (vy v) 0 then true else false) else false.

Fixpoint refine_loop (g : TrackGrid) (origin : Vec2) (direction : Vec2)
  (iters : nat) (inside outside : R) : R :=
  match iters with
  | O => inside
  | S k =>
      let mid := 0.5 * (inside + outside) in
      let point := vadd origin (vscale direction mid) in
      if is_road_at g point then refine_loop g origin direction k mid outside
      else refine_loop g origin direction k inside mid
  end.

(** [for _ in 0..8] bisection steps. *)
Definition refine_boundary_distance (g : TrackGrid) (origin direction : Vec2)
  (inside outside : R) : R :=
  refine_loop g origin direction 8 inside outside.

(** The coarse march [while distance <= max_range]; [fuel] bounds the number
    of loop tests (see [march_fuel]); the exhausted case returns what the
    loop exit returns. *)
Fixpoint march (g : TrackGrid) (origin dir : Vec2) (max_range step : R)
  (fuel : nat) (previous_distance distance : R) : R * Vec2 :=
  match fuel with
  | O => (max_range, vadd origin (vscale dir max_range))
  | S f =>
      if Rle_dec distance max_range then
        let point := vadd origin (vscale dir distance) in
        if negb (is_road_at g point) then
          let refined := refine_boundary_distance g origin dir previous_distance distance in
          (refined, vadd origin (vscale dir refined))
        else march g origin dir max_range step f distance (distance + step)
      else (max_range, vadd origin (vscale dir max_range))
  end.

(** [distance] takes the values [k * step] ([k >= 1]); the loop test fails
    once [k > max_range / step], so [up (max_range / step)] tests suffice. *)
Definition march_fuel (max_range step : R) : nat := S (Z.to_nat (up (max_range / step))).

Definition raycast_to_road_boundary (g : TrackGrid) (origin direction : Vec2)
  (max_range step : R) : R * Vec2 :=
  let dir := normalize_or_zero direction in
  if is_zero_vec dir then (0, origin)
  else
    let step := Rmax step 0.5 in
    march g origin dir max_range step (march_fuel max_range step) 0 step.

(** [while angle > PI { angle -= 2.0 * PI; }] *)
Fixpoint wrap_angle_down (fuel : nat) (a : R) : R :=
  match fuel with
  | O => a
  | S f => if Rlt_dec PI a then wrap_angle_down f (a - 2 * PI) else a
  end.

(** [while angle < -PI { angle += 2.0 * PI; }] *)
Fixpoint wrap_angle_up (fuel : nat) (a : R) : R :=
  match fuel with
  | O => a
  | S f => if Rlt_dec a (- PI) then wrap_angle_up f (a + 2 * PI) else a
  end.

Definition wrap_angle (a : R) : R :=
  let a := wrap_angle_down (angle_fuel a) a in
  wrap_angle_up (angle_fuel a) a.

(** glam [Vec2::to_angle] is [atan2(y, x)]. *)
Definition to_angle (v : Vec2) : R := atan2 (vy v) (vx v).

Definition signed_angle_between (from to : Vec2) : R :=
  let from_n := normalize_or_zero from in
  let to_n := normalize_or_zero to in
  if is_zero_vec from_n || is_zero_vec to_n then 0
  else wrap_angle (to_angle to_n - to_angle from_n).

(* ------------------------------------------------------------------ *)
(** ** Kinematics stepper ([game/physics.rs]) *)

(** The [f32] primitives the stepper uses.  [flt x y] is [x < y]. *)
Class FloatOps (F : Type) := {
  fadd : F -> F -> F;
  fmul : F -> F -> F;
  fneg : F -> F;
  flt : F -> F -> bool;
  fcos : F -> F;
  fsin : F -> F;
  fzero : F;
  fone : F;
  fminus_one : F
}.

Section Stepper.
Context {F : Type} `{FloatOps F}.

Record FVec2 := mkFVec2 { fvx : F; fvy : F }.

Record CarKinematicState := mkState {
  position : FVec2;
  velocity : FVec2;
  heading : F
}.

Record CarDynamicsParams := mkParams {
  rotation_speed : F;
  thrust : F;
  drag : F
}.

Definition fvadd (a b : FVec2) : FVec2 := mkFVec2 (fadd (fvx a) (fvx b)) (fadd (fvy a) (fvy b)).
Definition fvscale (a : FVec2) (k : F) : FVec2 := mkFVec2 (fmul (fvx a) k) (fmul (fvy a) k).

(** [f32::clamp] *)
Definition fclamp (x lo hi : F) : F :=
  let x := if flt x lo then lo else x in
  if flt hi x then hi else x.

(** [step_car_dynamics], with the [&mut] state passed and returned. *)
Definition step_car_dynamics (state : CarKinematicState) (steering throttle dt : F)
  (params : CarDynamicsParams) : CarKinematicState :=
  let heading' :=
    fadd (heading state)
      (fmul (fmul (fneg (fclamp steering fminus_one fone)) (rotation_speed params)) dt) in
  let velocity' :=
    if flt fzero throttle then
      let forward := mkFVec2 (fcos heading') (fsin heading') in
      fvadd (velocity state)
        (fvscale (fvscale forward (fmul (thrust params) (fclamp throttle fzero fone))) dt)
    else velocity state in
  let velocity'' := fvscale velocity' (drag params) in
  let position' := fvadd (position state) (fvscale velocity'' dt) in
  mkState position' velocity'' heading'.

(** A run of the stepper: the [for] loop of the replay test, one step per
    action pair and [dt]; [trajectory] lists the state after each step.
    The run stops when either sequence is exhausted. *)
Inductive Runs (params : CarDynamicsParams)
  : CarKinematicState -> list (F * F) -> list F -> list CarKinematicState -> Prop :=
| runs_no_action st dts : Runs params st [] dts []
| runs_no_dt st actions : Runs params st actions [] []
| runs_step st steering throttle dt actions dts trajectory :
    Runs params (step_car_dynamics st steering throttle dt params) actions dts trajectory ->
    Runs params st ((steering, throttle) :: actions) (dt :: dts)
      (step_car_dynamics st steering throttle dt params :: trajectory).
End Stepper.

Arguments FVec2 F : clear implicits.
Arguments CarKinematicState F : clear implicits.
Arguments CarDynamicsParams F : clear implicits.

#[export] Instance R_FloatOps : FloatOps R := {
  fadd := Rplus;
  fmul := Rmult;
  fneg := Ropp;
  flt := fun x y => if Rlt_dec x y then true else false;
  fcos := cos;
  fsin := sin;
  fzero := 0;
  fone := 1;
  fminus_one := -1
}.

Definition row_grid_1x3 : TrackGrid :=
  mkGrid [[StraightH; SpawnPoint; StraightH]] 100 (mkVec2 0 0).

Definition crossroads_2x2 : TrackGrid :=
  mkGrid [[Crossroads; Crossroads]; [Crossroads; Crossroads]] 100 (mkVec2 0 0).

Definition c6_expected (r c : nat) (d : GridDir) : CenterlineBuildError :=
  if Nat.ltb r 2 && Nat.ltb c 2 then
    match step_cell (r, c) d with
    | Some (r', c') =>
        if Nat.ltb r' 2 && Nat.ltb c' 2
        then AmbiguousBranch r' c'
               (filter (fun x => negb (GridDir_eqb x (opposite d))) [North; South; East; West])
        else DeadEnd r c
    | None => DeadEnd r c
    end
  else InvalidStartCell r c.

(** The claims' statements, for the refuted ones. *)
Definition C2_claim : Prop :=
  exists (st : CarKinematicState R) (steering throttle dt : R) (params : CarDynamicsParams R),
    (steering < -1 \/ 1 < steering \/ throttle < 0 \/ 1 < throttle) /\
    step_car_dynamics st steering throttle dt params <>
    step_car_dynamics st (fclamp steering (-1) 1) (fclamp throttle 0 1) dt params.

Definition C6_claim : Prop :=
  forall (r c : nat) (d : GridDir), exists row col options,
    build_closed_loop crossroads_2x2 (r, c) d = Err (AmbiguousBranch row col options).

(** A world point lies in the (half-open) square of cell [(r, c)]. *)
Definition in_cell (g : TrackGrid) (r c : nat) (w : Vec2) : Prop :=
  INR r * tile_size g <= vy (origin g) - vy w < INR (S r) * tile_size g /\
  INR c * tile_size g <= vx w - vx (origin g) < INR (S c) * tile_size g.

Definition open_dir (t : TilePart) (d : GridDir) : bool :=
  match d with North => open_n t | South => open_s t | East => open_e t | West => open_w t end.

(** Signed offset of [w] from the edge of cell [(r, c)] facing [d]. *)
Definition boundary_offset (g : TrackGrid) (r c : nat) (d : GridDir) (w : Vec2) : R :=
  match d with
  | North => vy w - (vy (origin g) - INR r * tile_size g)
  | South => vy w - (vy (origin g) - INR (S r) * tile_size g)
  | East => vx w - (vx (origin g) + INR (S c) * tile_size g)
  | West => vx w - (vx (origin g) + INR c * tile_size g)
  end.

(** The square [(0,0) -> (1,0) -> (1,1) -> (0,1)] as a centreline polyline. *)
Definition unit_square : list Vec2 := [mkVec2 0 0; mkVec2 1 0; mkVec2 1 1; mkVec2 0 1].

(** Concrete inputs used by the witnesses. *)
Definition car_params : CarDynamicsParams R := mkParams 4 1500 (985 / 1000).
Definition car_at_rest : CarKinematicState R := mkState (mkFVec2 0 0) (mkFVec2 0 0) 0.

(** Two vertical straights side by side: their shared edge is closed. *)
Definition wall_grid : TrackGrid := mkGrid [[StraightV; StraightV]] 10 (mkVec2 0 10).

(** A closed loop of four corners: [(0,0) -> (0,1) -> (1,1) -> (1,0)]. *)
Definition corner_loop_grid : TrackGrid :=
  mkGrid [[CornerNW; CornerNE]; [CornerSW; CornerSE]] 100 (mkVec2 0 0).

(** The [entry] point [build_polyline_points] pushes for cell [i]: the
    midpoint of the edge the traversal enters it through. *)
Definition polyline_entry (g : TrackGrid) (cells : list (nat * nat)) (dirs : list GridDir)
  (i : nat) : Vec2 :=
  let cell := nth i cells (0, 0)%nat in
  let prev_dir := if Nat.eqb i 0 then nth (length cells - 1) dirs North
                  else nth (i - 1) dirs North in
  vadd (cell_center g (fst cell) (snd cell)) (vscale (dir_unit (opposite prev_dir)) (tile_size g * 0.5)).

(* ------------------------------------------------------------------ *)
(** ** Actions ([agent/action.rs]) *)

Record CarAction := mkAction { steering : R; throttle : R }.

(** [CarAction::clamped] *)
Definition clamped (a : CarAction) : CarAction :=
  mkAction (clamp (steering a) (-1) 1) (clamp (throttle a) 0 1).

Record ActionState := mkActionState { desired : CarAction; applied : CarAction }.

Record ActionSmoothing := mkSmoothing { enabled : bool; time_constant_s : R }.

(** [action_smoothing_system]: [dt] is the fixed tick's [time.delta_secs()];
    the resource is passed and returned. *)
Definition action_smoothing (dt : R) (smoothing : ActionSmoothing) (st : ActionState)
  : ActionState :=
  let desired' := clamped (desired st) in
  if negb (enabled smoothing) then mkActionState (desired st) desired'
  else
    let tau := Rmax (time_constant_s smoothing) (1 / 10000) in
    let alpha := 1 - exp (- dt / tau) in
    let a := applied st in
    mkActionState (desired st)
      (clamped (mkAction (steering a + (steering desired' - steering a) * alpha)
                         (throttle a + (throttle desired' - throttle a) * alpha))).

(* ------------------------------------------------------------------ *)
(** ** Observation vector ([agent/observation.rs]) *)

(** [NUM_RAYS = 11] *)
Definition NUM_RAYS : nat := 11.

(** The fields of [ObservationConfig] that [build_observation_vector_system]
    reads. *)
Record ObservationConfig := mkObsConfig {
  ray_max_range : R;
  speed_norm_max : R;
  angular_velocity_norm_max : R
}.

(** The fields of [SensorReadings] that [build_observation_vector_system]
    reads; [ray_distances] is the array [[f32; NUM_RAYS]]. *)
Record SensorReadings := mkSensors {
  ray_distances : list R;
  speed : R;
  heading_error : R;
  angular_velocity : R
}.

(** The [values] array [build_observation_vector_system] writes, for one
    car: the [NUM_RAYS] ray entries are written in index order, then the
    last three.  The array has [NUM_RAYS + 3] entries when [ray_distances]
    has its [NUM_RAYS]. *)
Definition build_observation_vector (config : ObservationConfig) (sensors : SensorReadings)
  : list R :=
  map (fun distance => clamp (distance / ray_max_range config) 0 1) (ray_distances sensors) ++
  [clamp (speed sensors / speed_norm_max config) 0 1;
   clamp (heading_error sensors / PI) (-1) 1;
   clamp (angular_velocity sensors / angular_velocity_norm_max config) (-1) 1].

(* ------------------------------------------------------------------ *)
(** ** Episode loop ([game/episode.rs]) *)

Inductive EpisodeEndReason := Crash | Timeout | LapComplete.

Definition EpisodeEndReason_eqb (a b : EpisodeEndReason) : bool :=
  match a, b with
  | Crash, Crash | Timeout, Timeout | LapComplete, LapComplete => true
  | _, _ => false
  end.

Record EpisodeConfig := mkEpisodeConfig {
  timeout_s : R;
  lap_arm_fraction : R;
  lap_wrap_from_fraction : R;
  lap_wrap_to_fraction : R;
  progress_reward_scale : R;
  crash_penalty : R;
  lap_bonus : R;
  moving_average_window : nat
}.

(** [u32] counters are [Z]s in [[0, u32::MAX]]. *)
Definition U32_MAX : Z := 4294967295%Z.

Definition u32_saturating_add (x y : Z) : Z := Z.min (x + y) U32_MAX.

Record EpisodeState := mkEpisodeState {
  current_episode : Z;
  ticks_in_episode : Z;
  previous_progress_fraction : R;
  lap_armed : bool;
  current_return : R;
  current_best_progress_fraction : R;
  current_crashes : Z;
  last_end_reason : option EpisodeEndReason;
  last_episode_return : R;
  last_episode_best_progress_fraction : R;
  last_episode_crashes : Z
}.

(** The [VecDeque]s are lists, front first. *)
Record EpisodeMovingAverages := mkMovingAverages {
  returns : list R;
  best_progress_fractions : list R;
  crash_counts : list R;
  return_mean : R;
  best_progress_mean : R;
  crash_mean : R
}.

(** [while buffer.len() > limit { buffer.pop_front(); }]; every iteration
    removes one entry, so [length buffer] iterations suffice. *)
Fixpoint pop_front_while (fuel : nat) (buffer : list R) (limit : nat) : list R :=
  match fuel with
  | O => buffer
  | S f =>
      if Nat.ltb limit (length buffer) then
        match buffer with
        | [] => []
        | _ :: rest => pop_front_while f rest limit
        end
      else buffer
  end.

Definition push_with_limit (buffer : list R) (value : R) (limit : nat) : list R :=
  let buffer := buffer ++ [value] in
  pop_front_while (length buffer) buffer (Nat.max limit 1).

(** [values.iter().sum::<f32>() / values.len() as f32], [0.0] when empty. *)
Definition mean (values : list R) : R :=
  match values with
  | [] => 0
  | _ => fold_left Rplus values 0 / INR (length values)
  end.

Definition finalize_episode (config : EpisodeConfig) (st : EpisodeState)
  (avg : EpisodeMovingAverages) (reason : EpisodeEndReason)
  : EpisodeState * EpisodeMovingAverages :=
  let last_return := current_return st in
  let last_best := current_best_progress_fraction st in
  let last_crashes := current_crashes st in
  let rs := push_with_limit (returns avg) last_return (moving_average_window config) in
  let bs := push_with_limit (best_progress_fractions avg) last_best (moving_average_window config) in
  let cs := push_with_limit (crash_counts avg) (IZR last_crashes) (moving_average_window config) in
  (mkEpisodeState (u32_saturating_add (current_episode st) 1) 0 0 false 0 0 0%Z
     (Some reason) last_return last_best last_crashes,
   mkMovingAverages rs bs cs (mean rs) (mean bs) (mean cs)).

(** [episode_loop_system] once the track and the car are found: [dt] is the
    fixed tick's [time.delta_secs()], [fraction] the car's
    [TrackProgress.fraction], [crashed] whether a [CollisionEvent] was read.
    Besides the two resources it returns the end reason of the tick and
    whether [reset_car_to_spawn] runs. *)
Definition episode_loop (config : EpisodeConfig) (dt fraction : R) (crashed : bool)
  (st : EpisodeState) (avg : EpisodeMovingAverages)
  : EpisodeState * EpisodeMovingAverages * option EpisodeEndReason * bool :=
  let ticks := u32_saturating_add (ticks_in_episode st) 1 in
  let best := Rmax (current_best_progress_fraction st) fraction in
  let progress_delta := fraction - previous_progress_fraction st in
  let progress_delta :=
    if Rlt_dec 0.5 progress_delta then progress_delta - 1
    else if Rlt_dec progress_delta (-0.5) then progress_delta + 1
    else progress_delta in
  let ret := current_return st + progress_delta * progress_reward_scale config in
  let armed := if Rle_dec (lap_arm_fraction config) fraction then true else lap_armed st in
  let crashes := if crashed then u32_saturating_add (current_crashes st) 1 else current_crashes st in
  let ret := if crashed then ret + crash_penalty config else ret in
  let timed_out := if Rle_dec (timeout_s config) (IZR ticks * dt) then true else false in
  let lap_complete :=
    armed
    && (if Rle_dec (lap_wrap_from_fraction config) (previous_progress_fraction st) then true else false)
    && (if Rle_dec fraction (lap_wrap_to_fraction config) then true else false) in
  let ret := if lap_complete then ret + lap_bonus config else ret in
  let st' := mkEpisodeState (current_episode st) ticks (previous_progress_fraction st) armed ret
               best crashes (last_end_reason st) (last_episode_return st)
               (last_episode_best_progress_fraction st) (last_episode_crashes st) in
  let end_reason :=
    if crashed then Some Crash
    else if lap_complete then Some LapComplete
    else if timed_out then Some Timeout
    else None in
  match end_reason with
  | Some reason =>
      let reset_car := negb (EpisodeEndReason_eqb reason Crash) in
      let '(st'', avg') := finalize_episode config st' avg reason in
      (st'', avg', end_reason, reset_car)
  | None =>
      (mkEpisodeState (current_episode st') ticks fraction armed ret best crashes
         (last_end_reason st') (last_episode_return st')
         (last_episode_best_progress_fraction st') (last_episode_crashes st'),
       avg, None, false)
  end.

(** [EpisodeConfig::default()] *)
Definition default_episode_config : EpisodeConfig :=
  mkEpisodeConfig 30 0.25 0.85 0.15 100 (-10) 100 20.

(** [EpisodeState::default()] *)
Definition default_episode_state : EpisodeState :=
  mkEpisodeState 1 0 0 false 0 0 0 None 0 0 0.

(** [EpisodeMovingAverages::default()] *)
Definition default_moving_averages : EpisodeMovingAverages :=
  mkMovingAverages [] [] [] 0 0 0.

(* ================================================================== *)
(** * Proofs *)

(* ------------------------------------------------------------------ *)
(** ** Kinematics stepper *)

(** C1: runs of [step_car_dynamics] are deterministic: two runs from the same
    state on the same action pairs, [dt] sequence and parameters produce the
    same trajectory of states (position, velocity, heading), for every
    implementation of the arithmetic primitives. *)
Theorem step_car_dynamics_runs_deterministic {F : Type} `{FloatOps F}
  (params : CarDynamicsParams F) (st : CarKinematicState F)
  (actions : list (F * F)) (dts : list F) (run1 run2 : list (CarKinematicState F)) :
  Runs params st actions dts run1 -> Runs params st actions dts run2 -> run1 = run2.
Proof.
  intros H1; revert run2.
  induction H1 as [st dts | st actions | st steering throttle dt actions dts tr Hrun IH];
    intros run2 H2; inversion H2; subst; try reflexivity; try discriminate.
  f_equal. apply IH. assumption.
Qed.

Section StepperClamp.
Context {F : Type} `{FloatOps F}.
Hypothesis flt_irrefl : forall x, flt x x = false.
Hypothesis flt_trans : forall x y z, flt x y = true -> flt y z = true -> flt x z = true.
Hypothesis flt_zero_one : flt fzero fone = true.
Hypothesis flt_minus_one_one : flt fminus_one fone = true.

Lemma flt_asym x y : flt x y = true -> flt y x = false.
Proof.
  intros Hxy. destruct (flt y x) eqn:Hyx; [|reflexivity].
  rewrite <- (flt_irrefl x). symmetry. eapply flt_trans; eassumption.
Qed.

Ltac flt_simpl :=
  repeat match goal with
    | |- context [flt ?a ?a] => rewrite (flt_irrefl a)
    | H : flt ?a ?b = _ |- context [flt ?a ?b] => rewrite H
    end; cbv zeta.

Lemma fclamp_idem x lo hi : flt lo hi = true -> fclamp (fclamp x lo hi) lo hi = fclamp x lo hi.
Proof.
  intros Hlh. pose proof (flt_asym _ _ Hlh) as Hhl. unfold fclamp. cbv zeta.
  destruct (flt x lo) eqn:Hxl; flt_simpl; [reflexivity|].
  destruct (flt hi x) eqn:Hhx; flt_simpl; reflexivity.
Qed.

Lemma throttle_test_clamp t : flt fzero (fclamp t fzero fone) = flt fzero t.
Proof.
  pose proof (flt_asym _ _ flt_zero_one) as H10. unfold fclamp. cbv zeta.
  destruct (flt t fzero) eqn:Ht0; flt_simpl.
  - symmetry. apply flt_asym. exact Ht0.
  - destruct (flt fone t) eqn:H1t; flt_simpl; [|reflexivity].
    symmetry. eapply flt_trans; eassumption.
Qed.

Lemma step_clamped_inputs (st : CarKinematicState F) steering throttle dt
  (params : CarDynamicsParams F) :
  step_car_dynamics st steering throttle dt params =
  step_car_dynamics st (fclamp steering fminus_one fone) (fclamp throttle fzero fone) dt params.
Proof.
  unfold step_car_dynamics.
  rewrite (fclamp_idem steering _ _ flt_minus_one_one).
  rewrite (fclamp_idem throttle _ _ flt_zero_one).
  rewrite throttle_test_clamp. reflexivity.
Qed.

(** C2 (as amended): [step_car_dynamics] clamps its inputs itself:
    stepping with raw steering and throttle gives the same state as
    stepping with steering clamped to [[-1, 1]] and throttle clamped to
    [[0, 1]], for any arithmetic whose [<] is a strict order with
    [-1 < 1] and [0 < 1] (IEEE [f32] included). *)
Theorem step_car_dynamics_clamps_inputs (st : CarKinematicState F) steering throttle dt
  (params : CarDynamicsParams F) :
  step_car_dynamics st steering throttle dt params =
  step_car_dynamics st (fclamp steering fminus_one fone) (fclamp throttle fzero fone) dt params.
Proof. apply step_clamped_inputs. Qed.
End StepperClamp.

Lemma R_flt_irrefl (x : R) : flt x x = false.
Proof. simpl. destruct (Rlt_dec x x); [lra | reflexivity]. Qed.

Lemma R_flt_trans (x y z : R) : flt x y = true -> flt y z = true -> flt x z = true.
Proof.
  simpl. destruct (Rlt_dec x y), (Rlt_dec y z), (Rlt_dec x z); try discriminate; auto; lra.
Qed.

Lemma R_flt_zero_one : @flt R _ fzero fone = true.
Proof. simpl. destruct (Rlt_dec 0 1); [reflexivity | lra]. Qed.

Lemma R_flt_minus_one_one : @flt R _ fminus_one fone = true.
Proof. simpl. destruct (Rlt_dec (-1) 1); [reflexivity | lra]. Qed.

(** C2: the claim that some out-of-range input changes the step result is
    false: the stepper clamps. *)
Lemma C2_counterexample : ~ C2_claim.
Proof.
  intros (st & steering & throttle & dt & params & _ & Hne). apply Hne.
  exact (step_clamped_inputs R_flt_irrefl R_flt_trans R_flt_zero_one R_flt_minus_one_one
           st steering throttle dt params).
Qed.

(* ------------------------------------------------------------------ *)
(** ** Compiling grids to centrelines *)

(** C3 (as amended): compiling the row [StraightH; SpawnPoint; StraightH]
    from the middle cell heading East fails with [DeadEnd] at cell (0, 2):
    the traversal leaves the grid before any polyline is built. *)
Theorem build_row_1x3_dead_end (ts : R) (o : Vec2) :
  build_closed_loop (mkGrid [[StraightH; SpawnPoint; StraightH]] ts o) (0, 1)%nat East
  = Err (DeadEnd 0 2).
Proof. reflexivity. Qed.

(** C3: it does not fail with [TooShort]. *)
Lemma C3_counterexample :
  build_closed_loop row_grid_1x3 (0, 1)%nat East <> Err TooShort.
Proof. intro H. vm_compute in H. discriminate H. Qed.

(** C6 (as amended): compiling the 2x2 all-[Crossroads] grid never succeeds.
    From a cell outside the grid it fails with [InvalidStartCell]; when the
    start direction leads to another cell of the grid it fails with
    [AmbiguousBranch] at that cell (three options); when it leads out of the
    grid it fails with [DeadEnd] at the start cell. *)
Theorem build_crossroads_2x2_rejected (ts : R) (o : Vec2) (r c : nat) (d : GridDir) :
  build_closed_loop
    (mkGrid [[Crossroads; Crossroads]; [Crossroads; Crossroads]] ts o) (r, c) d
  = Err (c6_expected r c d).
Proof.
  destruct r as [|[|[|r]]], c as [|[|[|c]]], d; reflexivity.
Qed.

(** C6: starting at (0, 0) heading North yields [DeadEnd], not
    [AmbiguousBranch]. *)
Lemma C6_counterexample : ~ C6_claim.
Proof.
  intro H. destruct (H 0%nat 0%nat North) as (row & col & options & E).
  vm_compute in E. discriminate E.
Qed.

(* ------------------------------------------------------------------ *)
(** ** Raycast step floor *)

(** C9: a configured [ray_step] at or below [0.5] behaves exactly as
    [0.5]: [raycast_to_road_boundary] floors the march step. *)
Theorem raycast_step_floor (g : TrackGrid) (origin direction : Vec2) (max_range step : R) :
  step <= 0.5 ->
  raycast_to_road_boundary g origin direction max_range step =
  raycast_to_road_boundary g origin direction max_range 0.5.
Proof.
  intros Hs. unfold raycast_to_road_boundary.
  rewrite (Rmax_right step 0.5 Hs), (Rmax_right 0.5 0.5 (Rle_refl _)). reflexivity.
Qed.

(* ------------------------------------------------------------------ *)
(** ** Spawn lookup *)

Definition first_spawn (g : TrackGrid) (r c : nat) : Prop :=
  tile_at g r c = SpawnPoint /\
  forall r' c', (r' < r \/ (r' = r /\ c' < c))%nat -> tile_at g r' c' <> SpawnPoint.

Lemma find_in_row_spec (l : list TilePart) (k : nat) :
  match find_in_row l k with
  | Some c => exists j, c = (k + j)%nat /\ nth_error l j = Some SpawnPoint /\
                        forall j', (j' < j)%nat -> nth_error l j' <> Some SpawnPoint
  | None => forall j, nth_error l j <> Some SpawnPoint
  end.
Proof.
  revert k. induction l as [|t l IH]; intros k; simpl.
  - intros [|j]; discriminate.
  - destruct (TilePart_eqb t SpawnPoint) eqn:Ht.
    + apply TilePart_eqb_eq in Ht. subst. exists 0%nat. split; [lia|].
      split; [reflexivity|]. intros j' Hj'. lia.
    + assert (Hne : t <> SpawnPoint) by (intro E; subst; discriminate Ht).
      specialize (IH (S k)). destruct (find_in_row l (S k)) as [c|].
      * destruct IH as (j & -> & Hj & Hmin). exists (S j). split; [lia|].
        split; [exact Hj|]. intros [|j'] Hj'; simpl.
        -- intro E; inversion E; contradiction.
        -- apply Hmin. lia.
      * intros [|j]; simpl; [intro E; inversion E; contradiction | apply IH].
Qed.

Lemma row_has_no_spawn (row : list TilePart) :
  find_in_row row 0 = None -> forall j, nth_error row j <> Some SpawnPoint.
Proof. intros H. pose proof (find_in_row_spec row 0) as S. rewrite H in S. exact S. Qed.

Lemma find_in_rows_spec (rs : list (list TilePart)) (k : nat) :
  match find_in_rows rs k with
  | Some (r, c) =>
      exists j row, r = (k + j)%nat /\ nth_error rs j = Some row /\
        find_in_row row 0 = Some c /\
        forall j' row', (j' < j)%nat -> nth_error rs j' = Some row' -> find_in_row row' 0 = None
  | None => forall j row, nth_error rs j = Some row -> find_in_row row 0 = None
  end.
Proof.
  revert k. induction rs as [|row rs IH]; intros k; simpl.
  - intros [|j] row; discriminate.
  - destruct (find_in_row row 0) as [c|] eqn:Hrow.
    + exists 0%nat, row. split; [lia|]. split; [reflexivity|]. split; [exact Hrow|].
      intros j' row' Hj'. lia.
    + specialize (IH (S k)). destruct (find_in_rows rs (S k)) as [[r c]|].
      * destruct IH as (j & row' & -> & Hj & Hc & Hmin). exists (S j), row'.
        split; [lia|]. split; [exact Hj|]. split; [exact Hc|].
        intros [|j'] row'' Hj' E; simpl in E.
        -- inversion E; subst; exact Hrow.
        -- apply (Hmin j'); [lia | exact E].
      * intros [|j] row' E; simpl in E; [inversion E; subst; exact Hrow | exact (IH j row' E)].
Qed.

Lemma tile_at_spawn (g : TrackGrid) (r c : nat) :
  tile_at g r c = SpawnPoint <->
  exists row, nth_error (tiles g) r = Some row /\ nth_error row c = Some SpawnPoint.
Proof.
  unfold tile_at. split.
  - destruct (nth_error (tiles g) r) as [row|]; [|discriminate].
    destruct (nth_error row c) as [t|] eqn:E; [|discriminate].
    intros ->. eauto.
  - intros (row & -> & ->). reflexivity.
Qed.

(** C10: [find_spawn] either finds no [SpawnPoint] tile and returns [None],
    or returns [Some] of the centre of the first [SpawnPoint] cell in
    row-major order (topmost row, then leftmost column) with heading [0]. *)
Theorem find_spawn_first_in_row_major (g : TrackGrid) :
  (find_spawn g = None /\ forall r c, tile_at g r c <> SpawnPoint) \/
  (exists r c, first_spawn g r c /\ find_spawn g = Some (cell_center g r c, 0)).
Proof.
  unfold find_spawn, find_spawn_cell.
  pose proof (find_in_rows_spec (tiles g) 0) as Hs.
  destruct (find_in_rows (tiles g) 0) as [[r c]|].
  - right. destruct Hs as (j & row & -> & Hj & Hc & Hmin). simpl.
    exists j, c. split; [|reflexivity].
    pose proof (find_in_row_spec row 0) as Hr. rewrite Hc in Hr.
    destruct Hr as (i & -> & Hi & Hmin_i). simpl.
    split.
    + apply tile_at_spawn. eauto.
    + intros r' c' Hlt Hsp. apply tile_at_spawn in Hsp as (row' & Hr' & Hc').
      destruct Hlt as [Hlt | [-> Hlt]].
      * exact (row_has_no_spawn row' (Hmin r' row' Hlt Hr') c' Hc').
      * rewrite Hj in Hr'. inversion Hr'; subst. exact (Hmin_i c' Hlt Hc').
  - left. split; [reflexivity|]. intros r c Hsp.
    apply tile_at_spawn in Hsp as (row & Hr & Hc).
    exact (row_has_no_spawn row (Hs r row Hr) c Hc).
Qed.

(* ------------------------------------------------------------------ *)
(** ** Projection: the first segment of minimal distance wins *)

Lemma distance_seg_candidate cl w i : distance (seg_candidate cl w i) = Some (seg_dist cl w i).
Proof. reflexivity. Qed.

(** The loop invariant of [project] after the segments [0 .. k - 1]. *)
Lemma project_prefix (cl : TrackCenterline) (w : Vec2) (k : nat) :
  let best := fold_left (project_step cl w) (seq 0 k) (project_init cl) in
  ((forall j, (j < k)%nat -> seg_degenerate cl j = true) /\ best = project_init cl) \/
  (exists i, (i < k)%nat /\ seg_degenerate cl i = false /\ best = seg_candidate cl w i /\
     (forall j, (j < k)%nat -> seg_degenerate cl j = false -> seg_dist cl w i <= seg_dist cl w j) /\
     (forall j, (j < i)%nat -> seg_degenerate cl j = false -> seg_dist cl w i < seg_dist cl w j)).
Proof.
  induction k as [|k IH]; cbv zeta in *.
  - left. split; [intros j Hj; lia | reflexivity].
  - rewrite seq_S, fold_left_app. cbn [fold_left plus].
    set (best := fold_left (project_step cl w) (seq 0 k) (project_init cl)) in *.
    unfold project_step.
    destruct (seg_degenerate cl k) eqn:Hk.
    + destruct IH as [[Hall Hb] | (i & Hi & Hdi & Hb & Hle & Hlt)].
      * left. split; [|exact Hb]. intros j Hj.
        destruct (Nat.eq_dec j k) as [->|]; [exact Hk | apply Hall; lia].
      * right. exists i. split; [lia|]. split; [exact Hdi|]. split; [exact Hb|].
        split; [|exact Hlt]. intros j Hj Hdj.
        destruct (Nat.eq_dec j k) as [->|]; [congruence | apply Hle; [lia | exact Hdj]].
    + destruct IH as [[Hall Hb] | (i & Hi & Hdi & Hb & Hle & Hlt)].
      * rewrite Hb. simpl. right. exists k. split; [lia|]. split; [exact Hk|].
        split; [reflexivity|]. split.
        -- intros j Hj Hdj. destruct (Nat.eq_dec j k) as [->|]; [lra|].
           rewrite Hall in Hdj; [discriminate | lia].
        -- intros j Hj Hdj. rewrite Hall in Hdj; [discriminate | lia].
      * rewrite Hb, distance_seg_candidate. simpl.
        destruct (Rlt_dec (seg_dist cl w k) (seg_dist cl w i)) as [Hki|Hki].
        -- right. exists k. split; [lia|]. split; [exact Hk|]. split; [reflexivity|]. split.
           ++ intros j Hj Hdj. destruct (Nat.eq_dec j k) as [->|]; [lra|].
              specialize (Hle j ltac:(lia) Hdj). lra.
           ++ intros j Hj Hdj. specialize (Hle j ltac:(lia) Hdj). lra.
        -- right. exists i. split; [lia|]. split; [exact Hdi|]. split; [reflexivity|].
           split; [|exact Hlt]. intros j Hj Hdj.
           destruct (Nat.eq_dec j k) as [->|]; [lra | apply Hle; [lia | exact Hdj]].
Qed.

(** C4: for a centreline of at least two points, [project] returns the
    candidate of segment [i] (closest point at the clamped parameter [t],
    [s = cumulative_lengths[i] + t * segment length]) for a non-degenerate
    segment [i] whose distance is minimal over all non-degenerate segments
    and strictly smaller than that of every earlier non-degenerate segment
    (the first minimal segment wins); degenerate segments are skipped, and
    when every segment is degenerate the initial value (distance
    [f32::INFINITY]) is returned. *)
Theorem project_first_minimal_segment (cl : TrackCenterline) (w : Vec2) :
  (2 <= length (points cl))%nat ->
  ((forall j, (j < length (points cl))%nat -> seg_degenerate cl j = true) /\
   project cl w = project_init cl) \/
  (exists i, (i < length (points cl))%nat /\ seg_degenerate cl i = false /\
     project cl w = seg_candidate cl w i /\
     (forall j, (j < length (points cl))%nat -> seg_degenerate cl j = false ->
        seg_dist cl w i <= seg_dist cl w j) /\
     (forall j, (j < i)%nat -> seg_degenerate cl j = false -> seg_dist cl w i < seg_dist cl w j)).
Proof. intros _. exact (project_prefix cl w (length (points cl))). Qed.

(* ------------------------------------------------------------------ *)
(** ** Projection of a point lying on the centreline *)

(** The centreline [build_closed_loop] assembles from a list of points. *)
Definition centerline_of (pts : list Vec2) : TrackCenterline :=
  let '(cumulative_lengths, total_length) := compute_lengths pts in
  mkCenterline pts cumulative_lengths total_length.

Definition seg_length (pts : list Vec2) (k : nat) : R :=
  vdistance (nth k pts vzero) (nth (Nat.modulo (k + 1) (length pts)) pts vzero).

Fixpoint partial_length (pts : list Vec2) (m : nat) : R :=
  match m with
  | O => 0
  | S m => partial_length pts m + seg_length pts m
  end.

Lemma compute_lengths_prefix (pts : list Vec2) (m : nat) :
  fold_left
    (fun '(cumulative, total) i =>
       (cumulative ++ [total],
        total + vdistance (nth i pts vzero) (nth (Nat.modulo (i + 1) (length pts)) pts vzero)))
    (seq 0 m) ([], 0)
  = (map (partial_length pts) (seq 0 m), partial_length pts m).
Proof.
  induction m as [|m IH]; [reflexivity|].
  rewrite seq_S, fold_left_app, IH. simpl. rewrite map_app. reflexivity.
Qed.

Lemma centerline_of_eq (pts : list Vec2) :
  centerline_of pts =
  mkCenterline pts (map (partial_length pts) (seq 0 (length pts)))
    (partial_length pts (length pts)).
Proof.
  unfold centerline_of, compute_lengths. rewrite compute_lengths_prefix. reflexivity.
Qed.

Lemma seg_length_nonneg pts k : 0 <= seg_length pts k.
Proof. apply sqrt_pos. Qed.

Lemma partial_length_mono pts a b : (a <= b)%nat -> partial_length pts a <= partial_length pts b.
Proof.
  induction 1 as [|b _ IH]; [lra|]. simpl. pose proof (seg_length_nonneg pts b). lra.
Qed.

Lemma clamp_id x : 0 <= x <= 1 -> clamp x 0 1 = x.
Proof.
  intros Hx. unfold clamp. destruct (Rlt_dec x 0); [lra|].
  destruct (Rlt_dec 1 x); [lra | reflexivity].
Qed.

Lemma seg_dist_nonneg cl w j : 0 <= seg_dist cl w j.
Proof. apply sqrt_pos. Qed.

Lemma nondegenerate_len2 cl i : seg_degenerate cl i = false -> 1 / 100000000 < seg_len2 cl i.
Proof.
  unfold seg_degenerate. destruct (Rle_dec (seg_len2 cl i) (1 / 100000000)); [discriminate|].
  intros _. lra.
Qed.

Lemma project_on_segment (pts : list Vec2) (i : nat) (t : R) :
  let cl := centerline_of pts in
  (i < length pts)%nat -> seg_degenerate cl i = false -> 0 <= t <= 1 ->
  let p := vadd (seg_a cl i) (vscale (seg_d cl i) t) in
  (forall j, (j < i)%nat -> seg_degenerate cl j = false -> 0 < seg_dist cl p j) ->
  closest_point (project cl p) = p /\ distance (project cl p) = Some 0 /\
  fraction (project cl p) =
    (nth i (cumulative_lengths cl) 0 + t * seg_length pts i) / total_length cl.
Proof.
  intros cl Hi Hnd Ht p Hfirst.
  pose proof (nondegenerate_len2 cl i Hnd) as Hlen2.
  assert (Hpts : points cl = pts) by (unfold cl; rewrite centerline_of_eq; reflexivity).
  (* the projection parameter of [p] on segment [i] is [t] *)
  assert (Ht' : seg_t cl p i = t).
  { assert (Hq : vdot (vsub p (seg_a cl i)) (seg_d cl i) / seg_len2 cl i = t).
    { unfold p. unfold seg_len2, length_squared in *.
      set (a := seg_a cl i) in *. set (d := seg_d cl i) in *. clearbody a d.
      unfold vdot, vsub, vadd, vscale in *. simpl. field. lra. }
    unfold seg_t. rewrite Hq. apply clamp_id. exact Ht. }
  assert (Hp : seg_p cl p i = p) by (unfold seg_p; rewrite Ht'; reflexivity).
  assert (Hd0 : seg_dist cl p i = 0).
  { unfold seg_dist. rewrite Hp. unfold vdistance, vlength, length_squared, vdot, vsub.
    replace (vx p - vx p) with 0 by ring. replace (vy p - vy p) with 0 by ring.
    cbn [vx vy]. replace (0 * 0 + 0 * 0) with 0 by ring. apply sqrt_0. }
  (* segment [i] is the first minimal one *)
  assert (Hproj : project cl p = seg_candidate cl p i).
  { destruct (project_prefix cl p (length (points cl))) as [[Hall _] | (k & Hk & Hdk & Hb & Hle & Hlt)].
    - rewrite Hall in Hnd; [discriminate | rewrite Hpts; exact Hi].
    - unfold project. rewrite Hb.
      destruct (lt_eq_lt_dec k i) as [[Hki | ->] | Hik]; [| reflexivity |].
      + specialize (Hfirst k Hki Hdk). specialize (Hle i ltac:(rewrite Hpts; exact Hi) Hnd). lra.
      + specialize (Hlt i Hik Hnd). pose proof (seg_dist_nonneg cl p k). lra. }
  rewrite Hproj. split; [exact Hp|]. split; [simpl; rewrite Hd0; reflexivity|].
  (* the fraction *)
  assert (Hcum : cumulative_lengths cl = map (partial_length pts) (seq 0 (length pts)))
    by (unfold cl; rewrite centerline_of_eq; reflexivity).
  assert (Htot : total_length cl = partial_length pts (length pts))
    by (unfold cl; rewrite centerline_of_eq; reflexivity).
  assert (Hci : nth i (cumulative_lengths cl) 0 = partial_length pts i).
  { rewrite Hcum, (nth_indep _ 0 (partial_length pts 0)) by (rewrite length_map, length_seq; exact Hi).
    rewrite map_nth, seq_nth by exact Hi. reflexivity. }
  assert (Hsl : sqrt (seg_len2 cl i) = seg_length pts i).
  { unfold seg_length, seg_len2, seg_d, seg_a, seg_b. rewrite Hpts.
    unfold vdistance, vlength, length_squared, vdot, vsub. apply f_equal. cbn [vx vy]. ring. }
  assert (HL : 0 < seg_length pts i) by (rewrite <- Hsl; apply sqrt_lt_R0; lra).
  pose proof (partial_length_mono pts (S i) (length pts) Hi) as Hmono. simpl in Hmono.
  pose proof (partial_length_mono pts 0 i ltac:(lia)) as H0. simpl in H0.
  unfold seg_candidate. simpl. rewrite Hsl, Ht', Hci, Htot.
  rewrite Rmult_comm with (r1 := seg_length pts i).
  set (tot := partial_length pts (length pts)) in *.
  set (s0 := partial_length pts i + t * seg_length pts i).
  assert (Hs0 : 0 <= s0 <= tot) by (unfold s0; split; nra).
  apply clamp_id. split.
  - unfold Rdiv. apply Rmult_le_pos; [lra | left; apply Rinv_0_lt_compat; lra].
  - unfold Rdiv. apply Rmult_le_reg_r with tot; [lra|].
    rewrite Rmult_assoc, Rinv_l by lra. lra.
Qed.

(** C8 (as amended): a point [p] at parameter [t] in [[0, 1]] on a
    non-degenerate segment [i] of a centreline built by [compute_lengths],
    where [i] is the first non-degenerate segment passing through [p],
    projects to itself with distance [0] and
    [fraction = (cumulative_lengths[i] + t * segment length) / total_length].
    When an earlier segment also passes through [p] (the closing vertex
    [points[0]], or a self-intersection), that earlier segment is used. *)
Theorem project_point_on_centerline (pts : list Vec2) (i : nat) (t : R) :
  let cl := centerline_of pts in
  (i < length pts)%nat -> seg_degenerate cl i = false -> 0 <= t <= 1 ->
  let p := vadd (seg_a cl i) (vscale (seg_d cl i) t) in
  (forall j, (j < i)%nat -> seg_degenerate cl j = false -> 0 < seg_dist cl p j) ->
  closest_point (project cl p) = p /\ distance (project cl p) = Some 0 /\
  fraction (project cl p) =
    (nth i (cumulative_lengths cl) 0 + t * seg_length pts i) / total_length cl.
Proof. exact (project_on_segment pts i t). Qed.

Lemma unit_square_nondegenerate (i : nat) :
  (i < 4)%nat -> seg_degenerate (centerline_of unit_square) i = false.
Proof.
  intros Hi. unfold seg_degenerate, seg_len2, length_squared, vdot, seg_d, seg_a, seg_b.
  rewrite centerline_of_eq.
  destruct i as [|[|[|[|i]]]]; [| | | | lia]; simpl;
    match goal with |- context [Rle_dec ?x ?y] => destruct (Rle_dec x y) end;
    try reflexivity; lra.
Qed.

(** C8: the claim fails at the closing vertex of the unit square: [(0,0)]
    is the end ([t = 1]) of the last segment, where the claim expects
    [fraction = 1], but segment [0] comes first and [project] gives [0]. *)
Lemma C8_counterexample :
  ~ (forall (pts : list Vec2) (i : nat) (t : R),
       let cl := centerline_of pts in
       (i < length pts)%nat -> seg_degenerate cl i = false -> 0 <= t <= 1 ->
       let p := vadd (seg_a cl i) (vscale (seg_d cl i) t) in
       closest_point (project cl p) = p /\ distance (project cl p) = Some 0 /\
       fraction (project cl p) =
         (nth i (cumulative_lengths cl) 0 + t * seg_length pts i) / total_length cl).
Proof.
  intro H.
  destruct (H unit_square 3%nat 1 ltac:(simpl; lia) (unit_square_nondegenerate 3 ltac:(lia))
              ltac:(lra)) as (_ & _ & H3).
  destruct (project_on_segment unit_square 0 0 ltac:(simpl; lia)
              (unit_square_nondegenerate 0 ltac:(lia)) ltac:(lra)
              (fun j Hj _ => False_ind _ (Nat.nlt_0_r j Hj))) as (_ & _ & H0).
  cbv zeta in H3, H0.
  assert (Hp : vadd (seg_a (centerline_of unit_square) 3) (vscale (seg_d (centerline_of unit_square) 3) 1)
             = vadd (seg_a (centerline_of unit_square) 0) (vscale (seg_d (centerline_of unit_square) 0) 0)).
  { unfold seg_a, seg_d, seg_b, vadd, vscale, vsub. rewrite centerline_of_eq. simpl. f_equal; ring. }
  rewrite Hp, H0 in H3. rewrite centerline_of_eq in H3. simpl in H3.
  assert (HL0 : 0 < seg_length unit_square 0).
  { unfold seg_length, vdistance, vlength, length_squared, vdot, vsub. simpl.
    apply sqrt_lt_R0. lra. }
  pose proof (seg_length_nonneg unit_square 1). pose proof (seg_length_nonneg unit_square 2).
  pose proof (seg_length_nonneg unit_square 3).
  set (T := 0 + seg_length unit_square 0 + seg_length unit_square 1 + seg_length unit_square 2
            + seg_length unit_square 3) in H3.
  replace (0 + 0 * seg_length unit_square 0) with 0 in H3 by ring.
  replace (0 + seg_length unit_square 0 + seg_length unit_square 1 + seg_length unit_square 2
           + 1 * seg_length unit_square 3) with T in H3 by (unfold T; ring).
  assert (HT : 0 < T) by (unfold T; lra).
  unfold Rdiv in H3. rewrite Rmult_0_l, Rinv_r in H3 by lra. lra.
Qed.

(* ------------------------------------------------------------------ *)
(** ** Heading error *)

Lemma normalize_unit_x (x : R) : x * x = 1 -> normalize_or_zero (mkVec2 x 0) = mkVec2 x 0.
Proof.
  intros Hx. unfold normalize_or_zero, vlength, length_squared, vdot. cbn [vx vy].
  replace (x * x + 0 * 0) with 1 by lra. rewrite sqrt_1.
  destruct (Rlt_dec 0 1); [|lra]. unfold vscale. cbn [vx vy]. f_equal; field.
Qed.

(** C7 (code bug): for a car facing West ([forward = (-1, 0)]) on an
    East-going segment ([tangent = (1, 0)]) the signed heading error is
    exactly [-PI], outside [(-PI, PI]]: [wrap_angle] leaves [-PI] unchanged
    (its lower loop tests [angle < -PI]). *)
Theorem signed_angle_between_opposite :
  signed_angle_between (mkVec2 (-1) 0) (mkVec2 1 0) = - PI /\
  ~ (- PI < signed_angle_between (mkVec2 (-1) 0) (mkVec2 1 0)).
Proof.
  pose proof PI_RGT_0 as HPI.
  assert (E : signed_angle_between (mkVec2 (-1) 0) (mkVec2 1 0) = - PI).
  { unfold signed_angle_between.
    rewrite (normalize_unit_x (-1)) by lra. rewrite (normalize_unit_x 1) by lra.
    unfold is_zero_vec. cbn [vx vy].
    destruct (Req_dec_T (-1) 0); [lra|]. destruct (Req_dec_T 1 0); [lra|]. simpl.
    unfold to_angle, atan2. cbn [vx vy].
    destruct (Rlt_dec 0 1); [|lra]. destruct (Rlt_dec 0 (-1)); [lra|].
    destruct (Rlt_dec (-1) 0); [|lra]. destruct (Rle_dec 0 0); [|lra].
    replace (0 / 1) with 0 by field. replace (0 / -1) with 0 by field. rewrite atan_0.
    replace (0 - (0 + PI)) with (- PI) by ring.
    unfold wrap_angle, angle_fuel. cbn [wrap_angle_down].
    destruct (Rlt_dec PI (- PI)); [lra|]. cbn [wrap_angle_up].
    destruct (Rlt_dec (- PI) (- PI)); [lra|]. reflexivity. }
  split; [exact E | rewrite E; lra].
Qed.

(* ------------------------------------------------------------------ *)
(** ** Wall dead zone between road cells *)

Lemma vdistance_ge_x (w q : Vec2) : Rabs (vx w - vx q) <= vdistance w q.
Proof.
  unfold vdistance, vlength, length_squared, vdot, vsub. cbn [vx vy].
  rewrite <- sqrt_Rsqr_abs. apply sqrt_le_1_alt.
  pose proof (Rle_0_sqr (vy w - vy q)). unfold Rsqr in *. lra.
Qed.

Lemma vdistance_ge_y (w q : Vec2) : Rabs (vy w - vy q) <= vdistance w q.
Proof.
  unfold vdistance, vlength, length_squared, vdot, vsub. cbn [vx vy].
  rewrite <- sqrt_Rsqr_abs. apply sqrt_le_1_alt.
  pose proof (Rle_0_sqr (vx w - vx q)). unfold Rsqr in *. lra.
Qed.

Lemma vdistance_bounds (w q : Vec2) :
  vx w - vx q <= vdistance w q /\ vx q - vx w <= vdistance w q /\
  vy w - vy q <= vdistance w q /\ vy q - vy w <= vdistance w q.
Proof.
  pose proof (vdistance_ge_x w q) as Hx. pose proof (vdistance_ge_y w q) as Hy.
  pose proof (Rle_abs (vx w - vx q)). pose proof (Rle_abs (vy w - vy q)).
  pose proof (vdistance_ge_x w q) as Hx'. pose proof (vdistance_ge_y w q) as Hy'.
  rewrite Rabs_minus_sym in Hx', Hy'.
  pose proof (Rle_abs (vx q - vx w)). pose proof (Rle_abs (vy q - vy w)).
  repeat split; lra.
Qed.

(** Every case of [is_road_in_cell] for a tile whose edge is closed: the
    straight tests are decided by [lra], the corner arc test through the
    distance bounds. *)
Ltac closed_edge_cases g r c w Hclosed :=
  unfold is_road_in_cell, cell_center;
  destruct (tile_at g r c); simpl in Hclosed; try discriminate Hclosed;
  cbn [is_road negb is_corner open_edges corner_arc_params andb vx vy];
  try reflexivity;
  repeat match goal with
    | |- context [Rlt_dec ?a ?b] => destruct (Rlt_dec a b)
    | |- context [Rle_dec ?a ?b] => destruct (Rle_dec a b)
    end;
  cbn [andb negb]; try reflexivity;
  match goal with
  | H : vdistance w ?q <= _ |- _ =>
      pose proof (vdistance_bounds w q) as (? & ? & ? & ?); cbn [vx vy] in *; lra
  | _ => lra
  end.

Lemma closed_north_not_road g r c w :
  open_n (tile_at g r c) = false ->
  vy (origin g) - INR r * tile_size g - WALL_THICKNESS * 0.5 < vy w ->
  is_road_in_cell g r c w = false.
Proof. intros Hclosed Hw. closed_edge_cases g r c w Hclosed. Qed.

Lemma closed_south_not_road g r c w :
  open_s (tile_at g r c) = false ->
  vy w < vy (origin g) - INR (S r) * tile_size g + WALL_THICKNESS * 0.5 ->
  is_road_in_cell g r c w = false.
Proof. intros Hclosed Hw. rewrite S_INR in Hw. closed_edge_cases g r c w Hclosed. Qed.

Lemma closed_east_not_road g r c w :
  open_e (tile_at g r c) = false ->
  vx (origin g) + INR (S c) * tile_size g - WALL_THICKNESS * 0.5 < vx w ->
  is_road_in_cell g r c w = false.
Proof. intros Hclosed Hw. rewrite S_INR in Hw. closed_edge_cases g r c w Hclosed. Qed.

Lemma closed_west_not_road g r c w :
  open_w (tile_at g r c) = false ->
  vx w < vx (origin g) + INR c * tile_size g + WALL_THICKNESS * 0.5 ->
  is_road_in_cell g r c w = false.
Proof. intros Hclosed Hw. closed_edge_cases g r c w Hclosed. Qed.

Lemma as_usize_floor (x : R) (k : nat) : INR k <= x < INR k + 1 -> as_usize x = k.
Proof.
  intros Hx. unfold as_usize, Int_part.
  assert (Hup : (Z.of_nat k + 1)%Z = up x).
  { apply tech_up; rewrite plus_IZR, <- INR_IZR_INZ; simpl; lra. }
  rewrite <- Hup. replace (Z.of_nat k + 1 - 1)%Z with (Z.of_nat k) by ring.
  apply Nat2Z.id.
Qed.

Lemma div_cell_bounds (x ts : R) (k : nat) :
  0 < ts -> INR k * ts <= x < INR (S k) * ts -> INR k <= x / ts < INR k + 1.
Proof.
  intros Hts Hx. rewrite S_INR in Hx. unfold Rdiv. split.
  - apply Rmult_le_reg_r with ts; [exact Hts|].
    rewrite Rmult_assoc, Rinv_l by lra. lra.
  - apply Rmult_lt_reg_r with ts; [exact Hts|].
    rewrite Rmult_assoc, Rinv_l by lra. lra.
Qed.

Lemma is_road_at_in_cell (g : TrackGrid) (r c : nat) (w : Vec2) :
  0 < tile_size g -> in_cell g r c w -> is_road_at g w = true -> is_road_in_cell g r c w = true.
Proof.
  intros Hts [Hr Hc] Hroad. unfold is_road_at, world_to_cell in Hroad.
  pose proof (pos_INR r). pose proof (pos_INR c).
  assert (0 <= INR r * tile_size g) by nra. assert (0 <= INR c * tile_size g) by nra.
  destruct (Rlt_dec (vx w - vx (origin g)) 0); [lra|].
  destruct (Rlt_dec (vy (origin g) - vy w) 0); [lra|].
  rewrite (as_usize_floor _ c (div_cell_bounds _ _ _ Hts Hc)) in Hroad.
  rewrite (as_usize_floor _ r (div_cell_bounds _ _ _ Hts Hr)) in Hroad.
  destruct (Nat.leb (rows g) r || Nat.leb (cols g) c); [discriminate | exact Hroad].
Qed.

Lemma step_cell_some (r c r' c' : nat) (d : GridDir) :
  step_cell (r, c) d = Some (r', c') ->
  match d with
  | North => r = S r' /\ c' = c
  | South => r' = S r /\ c' = c
  | East => r' = r /\ c' = S c
  | West => r' = r /\ c = S c'
  end.
Proof.
  unfold step_cell, checked_add_signed. destruct d; simpl;
    repeat match goal with
      | |- context [(?z <? 0)%Z] => destruct (Z.ltb_spec z 0)
      end; intros E; try discriminate; inversion E; subst; lia.
Qed.

(** C5: for two adjacent cells [(r, c)] and [(r', c')] (the neighbour in
    direction [d]) whose shared edge is closed on both sides, every point of
    either cell lying strictly within half the wall thickness of the shared
    boundary is not road.  This covers corner tiles (arc test) as well as
    the others (edge insets); it holds whatever the tiles are, road or not. *)
Theorem is_road_at_shared_closed_edge (g : TrackGrid) (r c r' c' : nat) (d : GridDir) (w : Vec2) :
  0 < tile_size g ->
  step_cell (r, c) d = Some (r', c') ->
  open_dir (tile_at g r c) d = false ->
  open_dir (tile_at g r' c') (opposite d) = false ->
  in_cell g r c w \/ in_cell g r' c' w ->
  Rabs (boundary_offset g r c d w) < WALL_THICKNESS * 0.5 ->
  is_road_at g w = false.
Proof.
  intros Hts Hstep HA HB Hin Hoff.
  destruct (is_road_at g w) eqn:Hroad; [exfalso | reflexivity].
  pose proof (Rle_abs (boundary_offset g r c d w)) as H1.
  pose proof (Rle_abs (- boundary_offset g r c d w)) as H2. rewrite Rabs_Ropp in H2.
  apply step_cell_some in Hstep.
  destruct Hin as [Hin | Hin]; apply (is_road_at_in_cell g _ _ w Hts Hin) in Hroad;
    destruct d; destruct Hstep as [-> ->]; cbn [boundary_offset opposite open_dir] in HA, HB, H1, H2, Hoff.
  - rewrite (closed_north_not_road g (S r') c w HA) in Hroad; [discriminate|]. lra.
  - rewrite (closed_south_not_road g r c w HA) in Hroad; [discriminate|]. lra.
  - rewrite (closed_east_not_road g r c w HA) in Hroad; [discriminate|]. lra.
  - rewrite (closed_west_not_road g r (S c') w HA) in Hroad; [discriminate|]. lra.
  - rewrite (closed_south_not_road g r' c w HB) in Hroad; [discriminate|]. lra.
  - rewrite (closed_north_not_road g (S r) c w HB) in Hroad; [discriminate|]. lra.
  - rewrite (closed_west_not_road g r (S c) w HB) in Hroad; [discriminate|]. lra.
  - rewrite (closed_east_not_road g r c' w HB) in Hroad; [discriminate|]. lra.
Qed.

(* ------------------------------------------------------------------ *)
(** ** Witnesses *)

Lemma step_car_dynamics_runs_deterministic_witness :
  let run := [step_car_dynamics car_at_rest (1 / 2) 1 (1 / 60) car_params] in
  Runs car_params car_at_rest [(1 / 2, 1)] [1 / 60] run /\ run = run.
Proof.
  split.
  - repeat constructor.
  - apply (step_car_dynamics_runs_deterministic car_params car_at_rest [(1 / 2, 1)] [1 / 60]);
      repeat constructor.
Defined.

Lemma step_car_dynamics_clamps_inputs_witness :
  step_car_dynamics car_at_rest 3 2 (1 / 60) car_params =
  step_car_dynamics car_at_rest (fclamp 3 (-1) 1) (fclamp 2 0 1) (1 / 60) car_params.
Proof.
  exact (step_car_dynamics_clamps_inputs R_flt_irrefl R_flt_trans R_flt_zero_one
           R_flt_minus_one_one car_at_rest 3 2 (1 / 60) car_params).
Defined.

Lemma project_first_minimal_segment_witness :
  let cl := centerline_of unit_square in
  let w := mkVec2 (1 / 2) (-1) in
  ((forall j, (j < length (points cl))%nat -> seg_degenerate cl j = true) /\
   project cl w = project_init cl) \/
  (exists i, (i < length (points cl))%nat /\ seg_degenerate cl i = false /\
     project cl w = seg_candidate cl w i /\
     (forall j, (j < length (points cl))%nat -> seg_degenerate cl j = false ->
        seg_dist cl w i <= seg_dist cl w j) /\
     (forall j, (j < i)%nat -> seg_degenerate cl j = false -> seg_dist cl w i < seg_dist cl w j)).
Proof.
  apply (project_first_minimal_segment (centerline_of unit_square) (mkVec2 (1 / 2) (-1))).
  rewrite centerline_of_eq. simpl. lia.
Defined.

Lemma is_road_at_shared_closed_edge_witness : is_road_at wall_grid (mkVec2 9 5) = false.
Proof.
  apply (is_road_at_shared_closed_edge wall_grid 0 0 0 1 East (mkVec2 9 5)).
  - simpl. lra.
  - reflexivity.
  - reflexivity.
  - reflexivity.
  - left. cbv [in_cell wall_grid tile_size origin vx vy INR]. repeat split; lra.
  - cbv [WALL_THICKNESS boundary_offset wall_grid tile_size origin vx vy INR].
    rewrite Rabs_left by lra. lra.
Defined.

Lemma project_point_on_centerline_witness :
  let cl := centerline_of unit_square in
  let p := vadd (seg_a cl 0) (vscale (seg_d cl 0) (1 / 2)) in
  closest_point (project cl p) = p /\ distance (project cl p) = Some 0 /\
  fraction (project cl p) =
    (nth 0 (cumulative_lengths cl) 0 + 1 / 2 * seg_length unit_square 0) / total_length cl.
Proof.
  exact (project_point_on_centerline unit_square 0 (1 / 2) ltac:(simpl; lia)
           (unit_square_nondegenerate 0 ltac:(lia)) ltac:(lra)
           (fun j Hj _ => False_ind _ (Nat.nlt_0_r j Hj))).
Defined.

Lemma raycast_step_floor_witness :
  raycast_to_road_boundary row_grid_1x3 (mkVec2 150 (-50)) (mkVec2 1 0) 375 (1 / 4) =
  raycast_to_road_boundary row_grid_1x3 (mkVec2 150 (-50)) (mkVec2 1 0) 375 0.5.
Proof. apply raycast_step_floor. lra. Defined.

(* ================================================================== *)
(** * Further properties of the code *)

(* ------------------------------------------------------------------ *)
(** ** Grid steps and direction choice *)

(** [step_cell] and [opposite] undo each other: stepping from [x] towards
    [d] and then back towards [opposite d] returns to [x]. *)
Theorem step_cell_opposite_roundtrip (x y : nat * nat) (d : GridDir) :
  step_cell x d = Some y -> step_cell y (opposite d) = Some x.
Proof.
  destruct x as [r c], y as [r' c'].
  unfold step_cell, checked_add_signed. destruct d; simpl;
    repeat match goal with
      | |- context [(?z <? 0)%Z] => destruct (Z.ltb_spec z 0)
      end; intros E; try discriminate; inversion E; subst;
    repeat match goal with
      | |- context [(?z <? 0)%Z] => destruct (Z.ltb_spec z 0)
      end; try lia; f_equal; f_equal; lia.
Qed.

(** The open edges of a tile, counted. *)
Definition open_count (t : TilePart) : nat :=
  length (filter (open_dir t) [North; South; East; West]).

(** [choose_next_dir] succeeds only with an open edge of the tile other than
    the incoming one, and only when it is the only such edge. *)
Theorem choose_next_dir_ok_unique (g : TrackGrid) (cell : nat * nat) (incoming d : GridDir) :
  choose_next_dir g cell incoming = Ok d ->
  open_dir (tile_at g (fst cell) (snd cell)) d = true /\ d <> incoming /\
  (forall d', open_dir (tile_at g (fst cell) (snd cell)) d' = true -> d' = d \/ d' = incoming).
Proof.
  unfold choose_next_dir.
  destruct (tile_at g (fst cell) (snd cell)), incoming; simpl; intros E;
    try discriminate; inversion E; subst;
    (split; [reflexivity | split; [discriminate |]]);
    intros [] H; simpl in H; try discriminate; auto.
Qed.

(** Entered through one of its open edges, a tile with two open edges
    (straights, corners, the spawn tile) lets [choose_next_dir] continue,
    while a junction (three or four open edges) is rejected as an
    [AmbiguousBranch] at that cell; [DeadEnd] never arises. *)
Theorem choose_next_dir_through_open_edge (g : TrackGrid) (cell : nat * nat) (incoming : GridDir) :
  open_dir (tile_at g (fst cell) (snd cell)) incoming = true ->
  ((exists d, choose_next_dir g cell incoming = Ok d) <->
   open_count (tile_at g (fst cell) (snd cell)) = 2%nat) /\
  (forall e, choose_next_dir g cell incoming = Err e ->
   exists options, e = AmbiguousBranch (fst cell) (snd cell) options).
Proof.
  unfold choose_next_dir.
  destruct (tile_at g (fst cell) (snd cell)), incoming; simpl; intros Ho;
    try discriminate Ho;
    (split; [split; [intros [d E]; (discriminate E || reflexivity)
                    | intros Hc; (discriminate Hc || (eexists; reflexivity))]
            | intros e E; (discriminate E || (inversion E; eexists; reflexivity))]).
Qed.

(* ------------------------------------------------------------------ *)
(** ** The traversal returns a closed walk of distinct road cells *)

Lemma cell_eqb_eq (a b : nat * nat) : cell_eqb a b = true <-> a = b.
Proof.
  destruct a as [a1 a2], b as [b1 b2]. unfold cell_eqb. simpl.
  rewrite andb_true_iff, !Nat.eqb_eq. split; [intros [-> ->]; reflexivity | intros E; inversion E; auto].
Qed.

Lemma existsb_cell_eqb_false (x : nat * nat) (l : list (nat * nat)) :
  existsb (cell_eqb x) l = false -> ~ In x l.
Proof.
  intros H Hin. assert (existsb (cell_eqb x) l = true) by
    (apply existsb_exists; exists x; split; [exact Hin | apply cell_eqb_eq; reflexivity]).
  congruence.
Qed.

(** The state of the [loop] of [traverse_cells] at the head of an iteration. *)
Definition traverse_inv (g : TrackGrid) (start : nat * nat) (d0 : GridDir)
  (st : traverse_state) : Prop :=
  let '(cells, dirs, visited, current, _) := st in
  hd_error cells = Some start /\
  length cells = S (length dirs) /\
  visited = rev cells /\
  nth (length dirs) cells (0, 0)%nat = current /\
  NoDup cells /\
  (forall c, In c cells -> tile_at g (fst c) (snd c) <> Empty) /\
  (dirs = [] \/ hd_error dirs = Some d0) /\
  (forall i, (i < length dirs)%nat ->
     step_cell (nth i cells (0, 0)%nat) (nth i dirs North) = Some (nth (S i) cells (0, 0)%nat)).

Definition closed_walk (g : TrackGrid) (start : nat * nat) (d0 : GridDir)
  (cells : list (nat * nat)) (dirs : list GridDir) : Prop :=
  length cells = length dirs /\
  hd_error cells = Some start /\ hd_error dirs = Some d0 /\
  NoDup cells /\
  (forall c, In c cells -> tile_at g (fst c) (snd c) <> Empty) /\
  (forall i, (i < length dirs)%nat ->
     step_cell (nth i cells (0, 0)%nat) (nth i dirs North) =
     Some (nth (S i) (cells ++ [start]) (0, 0)%nat)).

Lemma hd_error_app_nonnil {A} (l m : list A) x : hd_error l = Some x -> hd_error (l ++ m) = Some x.
Proof. destruct l; simpl; [discriminate | auto]. Qed.

Lemma traverse_loop_closed_walk (g : TrackGrid) (start : nat * nat) (d0 : GridDir)
  (fuel : nat) (st : traverse_state) (cells : list (nat * nat)) (dirs : list GridDir) :
  traverse_inv g start d0 st ->
  traverse_loop g start d0 fuel st = Ok (cells, dirs) ->
  closed_walk g start d0 cells dirs.
Proof.
  revert st. induction fuel as [|fuel IH]; intros st Hinv Hrun; [discriminate|].
  simpl in Hrun. destruct st as [[[[cs ds] vis] cur] inc].
  destruct Hinv as (Hhd & Hlen & Hvis & Hcur & Hnd & Hroad & Hd0 & Hsteps).
  unfold traverse_body in Hrun.
  set (nd := if cell_eqb cur start && match ds with [] => true | _ => false end
             then Ok d0 else choose_next_dir g cur inc) in Hrun.
  assert (Hnd0 : forall d, nd = Ok d -> ds = [] -> d = d0).
  { intros d Hd ->. unfold nd in Hd. simpl in Hlen.
    destruct cs as [|c0 [|]]; simpl in Hlen; try lia. simpl in Hhd, Hcur. inversion Hhd; subst.
    rewrite (proj2 (cell_eqb_eq start start) eq_refl) in Hd. simpl in Hd. congruence. }
  destruct nd as [d|e] eqn:Hnd'; [|discriminate].
  destruct (step_cell cur d) as [next|] eqn:Hstep; [|discriminate].
  assert (Hsteps' : forall i, (i < length (ds ++ [d]))%nat ->
            step_cell (nth i cs (0, 0)%nat) (nth i (ds ++ [d]) North) =
            Some (nth (S i) (cs ++ [next]) (0, 0)%nat)).
  { intros i Hi. rewrite length_app in Hi. simpl in Hi.
    destruct (Nat.eq_dec i (length ds)) as [->|Hne].
    - rewrite app_nth2, Nat.sub_diag by lia. simpl.
      rewrite app_nth2 by lia. replace (S (length ds) - length cs)%nat with 0%nat by lia.
      rewrite Hcur. exact Hstep.
    - rewrite app_nth1 by lia. rewrite app_nth1 by lia. apply Hsteps. lia. }
  assert (Hhd' : hd_error (ds ++ [d]) = Some d0).
  { destruct Hd0 as [->|Hh]; [simpl; f_equal; apply Hnd0; reflexivity | apply hd_error_app_nonnil; exact Hh]. }
  destruct (cell_eqb next start) eqn:Hclose.
  - apply cell_eqb_eq in Hclose. subst next. inversion Hrun; subst cells dirs.
    repeat split; try assumption. rewrite length_app. simpl. lia.
  - destruct (existsb (cell_eqb next) vis) eqn:Hvisited; [discriminate|].
    destruct (TilePart_eqb (tile_at g (fst next) (snd next)) Empty) eqn:Hempty; [discriminate|].
    refine (IH _ _ Hrun).
    apply existsb_cell_eqb_false in Hvisited. rewrite Hvis, <- in_rev in Hvisited.
    repeat split.
    + apply hd_error_app_nonnil. exact Hhd.
    + rewrite !length_app. simpl. lia.
    + rewrite Hvis, rev_app_distr. reflexivity.
    + rewrite length_app. simpl. rewrite app_nth2 by lia.
      replace (length ds + 1 - length cs)%nat with 0%nat by lia. reflexivity.
    + apply NoDup_app; [exact Hnd | constructor; [intros [] | constructor] |].
      intros x Hx Hx'. destruct Hx' as [<-|[]]. contradiction.
    + intros c Hc. apply in_app_or in Hc. destruct Hc as [Hc|[<-|[]]]; [apply Hroad; exact Hc|].
      intros E. rewrite E in Hempty. discriminate.
    + right. exact Hhd'.
    + intros i Hi. rewrite (app_nth1 cs [next]) by (rewrite length_app in Hi; simpl in Hi; lia).
      apply Hsteps'. exact Hi.
Qed.

(** On success, [traverse_cells] returns a closed walk: as many cells as
    directions, starting at [start_cell] in direction [start_dir], with
    pairwise distinct non-[Empty] cells, each direction leading from its
    cell to the next one and the last one leading back to the start. *)
Theorem traverse_cells_closed_walk (g : TrackGrid) (start : nat * nat) (d0 : GridDir)
  (cells : list (nat * nat)) (dirs : list GridDir) :
  traverse_cells g start d0 = Ok (cells, dirs) ->
  length cells = length dirs /\
  hd_error cells = Some start /\ hd_error dirs = Some d0 /\
  NoDup cells /\
  (forall c, In c cells -> tile_at g (fst c) (snd c) <> Empty) /\
  (forall i, (i < length dirs)%nat ->
     step_cell (nth i cells (0, 0)%nat) (nth i dirs North) =
     Some (nth (S i) (cells ++ [start]) (0, 0)%nat)).
Proof.
  unfold traverse_cells. destruct start as [r c].
  destruct (TilePart_eqb (tile_at g r c) Empty) eqn:He; [discriminate|].
  apply traverse_loop_closed_walk.
  repeat split; try reflexivity.
  - constructor; [intros [] | constructor].
  - intros x [<-|[]] E. simpl in E. rewrite E in He. discriminate.
  - left. reflexivity.
  - intros i Hi. simpl in Hi. lia.
Qed.

(* ------------------------------------------------------------------ *)
(** ** Built centrelines: point spacing, lengths and progress *)

(** Consecutive points at least [1e-3] apart. *)
Fixpoint apart_chain (l : list Vec2) : Prop :=
  match l with
  | a :: ((b :: _) as t) => 1 / 1000 <= vdistance a b /\ apart_chain t
  | _ => True
  end.

Lemma last_point_last (l : list Vec2) (q : Vec2) :
  last_point l = Some q -> l <> [] /\ last l vzero = q.
Proof.
  unfold last_point. intros H. destruct (rev l) as [|q' t] eqn:E; [discriminate|].
  inversion H; subst q'. rewrite <- (rev_involutive l), E. simpl.
  split; [destruct (rev t); discriminate | apply last_last].
Qed.

Lemma last_point_nil (l : list Vec2) : last_point l = None -> l = [].
Proof.
  unfold last_point. destruct (rev l) eqn:E; [|discriminate].
  intros _. rewrite <- (rev_involutive l), E. reflexivity.
Qed.

Lemma apart_chain_snoc (l : list Vec2) (p : Vec2) :
  apart_chain l -> l <> [] -> 1 / 1000 <= vdistance (last l vzero) p -> apart_chain (l ++ [p]).
Proof.
  induction l as [|a l IH]; intros Hc Hne Hd; [congruence|].
  destruct l as [|b l].
  - simpl in *. tauto.
  - destruct Hc as [Hab Hc]. simpl. split; [exact Hab|].
    apply IH; [exact Hc | discriminate | exact Hd].
Qed.

Lemma apart_chain_push_unique (l : list Vec2) (p : Vec2) :
  apart_chain l -> apart_chain (push_unique l p).
Proof.
  intros Hc. unfold push_unique. destruct (last_point l) as [q|] eqn:Hq.
  - destruct (Rlt_dec (vdistance q p) (1 / 1000)); [exact Hc|].
    destruct (last_point_last l q Hq) as [Hne Hl].
    apply apart_chain_snoc; [exact Hc | exact Hne | rewrite Hl; lra].
  - rewrite (last_point_nil l Hq). exact I.
Qed.

Lemma apart_chain_arc (l : list Vec2) center radius entry exit :
  apart_chain l -> apart_chain (push_corner_arc_samples l center radius entry exit).
Proof.
  unfold push_corner_arc_samples. intros Hc.
  generalize (seq 1 CENTERLINE_ARC_SAMPLES). intros is. revert l Hc.
  induction is as [|i is IH]; intros l Hc; [exact Hc|]. simpl.
  apply IH. apply apart_chain_push_unique. exact Hc.
Qed.

Lemma apart_chain_removelast (l : list Vec2) : apart_chain l -> apart_chain (removelast l).
Proof.
  induction l as [|a [|b l] IH]; simpl; try tauto.
  intros [Hab Hc]. specialize (IH Hc). destruct l as [|c l]; [exact I|].
  simpl in IH |- *. split; [exact Hab | exact IH].
Qed.

Lemma apart_chain_build_polyline (g : TrackGrid) cells dirs :
  apart_chain (build_polyline_points g cells dirs).
Proof.
  unfold build_polyline_points. destruct (length cells) as [|n]; [exact I|].
  set (f := fun (points : list Vec2) (i : nat) => _).
  assert (Hf : forall is l, apart_chain l -> apart_chain (fold_left f is l)).
  { induction is as [|i is IH]; intros l Hl; [exact Hl|]. simpl. apply IH.
    unfold f. cbv zeta. destruct (is_corner _).
    - apply apart_chain_arc, apart_chain_push_unique, Hl.
    - apply apart_chain_push_unique, apart_chain_push_unique, Hl. }
  specialize (Hf (seq 0 (S n)) [] I).
  destruct (fold_left f (seq 0 (S n)) []) as [|first rest]; [exact I|].
  destruct (last_point (first :: rest)); [|exact Hf].
  destruct (Rlt_dec _ _); [apply apart_chain_removelast|]; exact Hf.
Qed.

Lemma apart_chain_nth (l : list Vec2) (i : nat) :
  apart_chain l -> (S i < length l)%nat -> 1 / 1000 <= vdistance (nth i l vzero) (nth (S i) l vzero).
Proof.
  revert i. induction l as [|a [|b l] IH]; intros i Hc Hi; simpl in Hi; try lia.
  destruct Hc as [Hab Hc]. destruct i as [|i]; [exact Hab|].
  apply (IH i Hc). simpl. lia.
Qed.

Lemma seg_len2_vdistance (cl : TrackCenterline) (i : nat) :
  seg_len2 cl i = vdistance (seg_a cl i) (seg_b cl i) * vdistance (seg_a cl i) (seg_b cl i).
Proof.
  unfold seg_len2, seg_d, vdistance, vlength, length_squared, vdot, vsub. cbn [vx vy].
  rewrite sqrt_sqrt by (apply Rplus_le_le_0_compat; apply Rle_0_sqr). ring.
Qed.

Lemma build_closed_loop_points (g : TrackGrid) start d0 cl :
  build_closed_loop g start d0 = Ok cl ->
  cl = centerline_of (points cl) /\ (3 <= length (points cl))%nat /\ apart_chain (points cl).
Proof.
  unfold build_closed_loop. destruct (traverse_cells g start d0) as [[cells dirs]|]; [|discriminate].
  pose proof (apart_chain_build_polyline g cells dirs) as Hc.
  destruct (Nat.ltb_spec (length (build_polyline_points g cells dirs)) 3) as [|Hlen]; [discriminate|].
  unfold centerline_of. destruct (compute_lengths _) as [cum tot] eqn:E.
  intros Hok. inversion Hok; subst. simpl. rewrite E. auto.
Qed.

(** A centreline returned by [build_closed_loop] has at least three points,
    its lengths are the ones [compute_lengths] gives for them, and no two
    consecutive points are closer than [1e-3] ([push_unique] and the final
    pop keep them apart): every segment except the closing one
    [points[n-1] -> points[0]] has squared length at least [1e-6], so
    [project] never skips it as degenerate. *)
Theorem build_closed_loop_segments_nondegenerate (g : TrackGrid) start d0 cl :
  build_closed_loop g start d0 = Ok cl ->
  cl = centerline_of (points cl) /\ (3 <= length (points cl))%nat /\
  (forall i, (S i < length (points cl))%nat ->
     1 / 1000000 <= seg_len2 cl i /\ seg_degenerate cl i = false).
Proof.
  intros H. destruct (build_closed_loop_points g start d0 cl H) as (Hcl & H3 & Hc).
  split; [exact Hcl|]. split; [exact H3|]. intros i Hi.
  assert (Hb : seg_b cl i = nth (S i) (points cl) vzero).
  { unfold seg_b. rewrite Nat.mod_small by lia. f_equal. lia. }
  pose proof (apart_chain_nth (points cl) i Hc Hi) as Hd.
  rewrite <- Hb in Hd. fold (seg_a cl i) in Hd.
  assert (H6 : 1 / 1000000 <= seg_len2 cl i).
  { rewrite seg_len2_vdistance. pose proof (sqrt_pos (length_squared (vsub (seg_a cl i) (seg_b cl i)))).
    unfold vdistance, vlength in *. nra. }
  split; [exact H6|]. unfold seg_degenerate.
  destruct (Rle_dec (seg_len2 cl i) (1 / 100000000)); [lra | reflexivity].
Qed.

(** [compute_lengths] returns prefix sums: [cumulative[i]] is the total
    length of the segments [0 .. i - 1] (so [cumulative[0] = 0] and the
    entries never decrease) and [total] that of all [n] segments, the
    closing one included. *)
Theorem compute_lengths_prefix_sums (pts : list Vec2) :
  let '(cumulative, total) := compute_lengths pts in
  length cumulative = length pts /\
  total = partial_length pts (length pts) /\
  (forall i, (i < length pts)%nat ->
     nth i cumulative 0 = partial_length pts i /\
     nth i cumulative 0 <= nth (S i) (cumulative ++ [total]) 0 /\
     nth (S i) (cumulative ++ [total]) 0 = nth i cumulative 0 + seg_length pts i).
Proof.
  unfold compute_lengths. rewrite compute_lengths_prefix.
  split; [rewrite length_map, length_seq; reflexivity|]. split; [reflexivity|].
  intros i Hi.
  assert (Hn : forall k, (k < length pts)%nat ->
            nth k (map (partial_length pts) (seq 0 (length pts))) 0 = partial_length pts k).
  { intros k Hk. rewrite (nth_indep _ 0 (partial_length pts 0)) by (rewrite length_map, length_seq; exact Hk).
    rewrite map_nth, seq_nth by exact Hk. reflexivity. }
  assert (Hs : nth (S i) (map (partial_length pts) (seq 0 (length pts)) ++ [partial_length pts (length pts)]) 0
               = partial_length pts (S i)).
  { destruct (Nat.eq_dec (S i) (length pts)) as [E|E].
    - rewrite app_nth2 by (rewrite length_map, length_seq; lia).
      rewrite length_map, length_seq, E, Nat.sub_diag. reflexivity.
    - rewrite app_nth1 by (rewrite length_map, length_seq; lia). apply Hn. lia. }
  rewrite Hs, Hn by exact Hi. simpl. pose proof (seg_length_nonneg pts i). split; [reflexivity | lra].
Qed.

Lemma clamp_bounds (x lo hi : R) : lo <= hi -> lo <= clamp x lo hi <= hi.
Proof.
  intros H. unfold clamp. destruct (Rlt_dec x lo); destruct (Rlt_dec hi _); lra.
Qed.

(** On a centreline whose lengths come from [compute_lengths], [project]
    reports an arc length [s] within [[0, total_length]] and a [fraction]
    within [[0, 1]], for every query point. *)
Theorem project_progress_in_range (pts : list Vec2) (w : Vec2) :
  let cl := centerline_of pts in
  0 <= s (project cl w) <= total_length cl /\ 0 <= fraction (project cl w) <= 1.
Proof.
  intros cl.
  assert (Hpts : points cl = pts) by (unfold cl; rewrite centerline_of_eq; reflexivity).
  assert (Htot : total_length cl = partial_length pts (length pts))
    by (unfold cl; rewrite centerline_of_eq; reflexivity).
  assert (Hcum : cumulative_lengths cl = map (partial_length pts) (seq 0 (length pts)))
    by (unfold cl; rewrite centerline_of_eq; reflexivity).
  pose proof (partial_length_mono pts 0 (length pts) ltac:(lia)) as H0. simpl in H0.
  destruct (project_prefix cl w (length (points cl))) as [[_ Hb] | (i & Hi & _ & Hb & _)];
    unfold project; rewrite Hb.
  - simpl. rewrite Htot. lra.
  - rewrite Hpts in Hi. unfold seg_candidate. cbn [s fraction].
    split; [| apply clamp_bounds; lra].
    assert (Hci : nth i (cumulative_lengths cl) 0 = partial_length pts i).
    { rewrite Hcum, (nth_indep _ 0 (partial_length pts 0)) by (rewrite length_map, length_seq; exact Hi).
      rewrite map_nth, seq_nth by exact Hi. reflexivity. }
    assert (Hsl : sqrt (seg_len2 cl i) = seg_length pts i).
    { unfold seg_length, seg_len2, seg_d, seg_a, seg_b. rewrite Hpts.
      unfold vdistance, vlength, length_squared, vdot, vsub. apply f_equal. cbn [vx vy]. ring. }
    pose proof (clamp_bounds (vdot (vsub w (seg_a cl i)) (seg_d cl i) / seg_len2 cl i) 0 1 ltac:(lra)).
    fold (seg_t cl w i) in H.
    pose proof (partial_length_mono pts (S i) (length pts) Hi) as Hm. simpl in Hm.
    pose proof (partial_length_mono pts 0 i ltac:(lia)) as Hm0. simpl in Hm0.
    pose proof (seg_length_nonneg pts i).
    rewrite Hci, Hsl, Htot. nra.
Qed.

(* ------------------------------------------------------------------ *)
(** ** Cell lookup and road membership *)

Lemma as_usize_spec (x : R) : 0 <= x -> INR (as_usize x) <= x < INR (as_usize x) + 1.
Proof.
  intros Hx. unfold as_usize. destruct (base_Int_part x) as [H1 H2].
  assert (Hz : (0 <= Int_part x)%Z).
  { assert (-1 < IZR (Int_part x)) by lra.
    apply Z.lt_pred_le. apply lt_IZR. simpl. lra. }
  rewrite INR_IZR_INZ, Z2Nat.id by exact Hz. lra.
Qed.

Lemma in_cell_world_to_cell (g : TrackGrid) (r c : nat) (w : Vec2) :
  0 < tile_size g -> (r < rows g)%nat -> (c < cols g)%nat -> in_cell g r c w ->
  world_to_cell g w = Some (r, c).
Proof.
  intros Hts Hr Hc [Hy Hx]. unfold world_to_cell.
  pose proof (pos_INR r). pose proof (pos_INR c).
  assert (0 <= INR r * tile_size g) by nra. assert (0 <= INR c * tile_size g) by nra.
  destruct (Rlt_dec (vx w - vx (origin g)) 0); [lra|].
  destruct (Rlt_dec (vy (origin g) - vy w) 0); [lra|].
  rewrite (as_usize_floor _ c (div_cell_bounds _ _ _ Hts Hx)).
  rewrite (as_usize_floor _ r (div_cell_bounds _ _ _ Hts Hy)).
  destruct (Nat.leb_spec (rows g) r); [lia|]. destruct (Nat.leb_spec (cols g) c); [lia|].
  reflexivity.
Qed.

Lemma world_to_cell_in_cell (g : TrackGrid) (r c : nat) (w : Vec2) :
  0 < tile_size g -> world_to_cell g w = Some (r, c) ->
  (r < rows g)%nat /\ (c < cols g)%nat /\ in_cell g r c w.
Proof.
  intros Hts. unfold world_to_cell.
  destruct (Rlt_dec (vx w - vx (origin g)) 0); [discriminate|].
  destruct (Rlt_dec (vy (origin g) - vy w) 0); [discriminate|].
  assert (Hqx : 0 <= (vx w - vx (origin g)) / tile_size g)
    by (unfold Rdiv; apply Rmult_le_pos; [lra | left; apply Rinv_0_lt_compat; lra]).
  assert (Hqy : 0 <= (vy (origin g) - vy w) / tile_size g)
    by (unfold Rdiv; apply Rmult_le_pos; [lra | left; apply Rinv_0_lt_compat; lra]).
  destruct (Nat.leb_spec (rows g) (as_usize ((vy (origin g) - vy w) / tile_size g))); [discriminate|].
  destruct (Nat.leb_spec (cols g) (as_usize ((vx w - vx (origin g)) / tile_size g))); [discriminate|].
  simpl. intros E. inversion E; subst r c.
  split; [assumption|]. split; [assumption|].
  pose proof (as_usize_spec _ Hqx) as Hx. pose proof (as_usize_spec _ Hqy) as Hy.
  set (kx := as_usize ((vx w - vx (origin g)) / tile_size g)) in *.
  set (ky := as_usize ((vy (origin g) - vy w) / tile_size g)) in *.
  unfold in_cell. rewrite !S_INR.
  assert (Ex : (vx w - vx (origin g)) = (vx w - vx (origin g)) / tile_size g * tile_size g)
    by (field; lra).
  assert (Ey : (vy (origin g) - vy w) = (vy (origin g) - vy w) / tile_size g * tile_size g)
    by (field; lra).
  split; split; [rewrite Ey | rewrite Ey | rewrite Ex | rewrite Ex]; nra.
Qed.

Lemma cell_center_in_cell (g : TrackGrid) (r c : nat) :
  0 < tile_size g -> in_cell g r c (cell_center g r c).
Proof.
  intros Hts. unfold in_cell, cell_center. cbn [vx vy]. rewrite !S_INR. split; split; lra.
Qed.

Lemma world_to_cell_cell_center (g : TrackGrid) (r c : nat) :
  0 < tile_size g -> (r < rows g)%nat -> (c < cols g)%nat ->
  world_to_cell g (cell_center g r c) = Some (r, c).
Proof.
  intros Hts Hr Hc. apply in_cell_world_to_cell; try assumption. apply cell_center_in_cell, Hts.
Qed.

(** With a positive tile size, [world_to_cell] finds cell [(r, c)] exactly
    for the points of that cell's half-open square
    [[col * tile_size, (col + 1) * tile_size)] (rightwards from the origin)
    by [[row * tile_size, (row + 1) * tile_size)] (downwards), and only for
    cells inside the grid; in particular the centre [cell_center] of a cell
    inside the grid maps back to that cell (round trip). *)
Theorem world_to_cell_spec (g : TrackGrid) (r c : nat) (w : Vec2) :
  0 < tile_size g ->
  (world_to_cell g w = Some (r, c) <-> ((r < rows g)%nat /\ (c < cols g)%nat /\ in_cell g r c w)) /\
  ((r < rows g)%nat -> (c < cols g)%nat -> world_to_cell g (cell_center g r c) = Some (r, c)).
Proof.
  intros Hts. split; [split|].
  - apply world_to_cell_in_cell, Hts.
  - intros (Hr & Hc & Hin). apply in_cell_world_to_cell; assumption.
  - intros Hr Hc. apply world_to_cell_cell_center; assumption.
Qed.

Lemma sqrt_le_of_sq (x y : R) : 0 <= y -> x <= y * y -> sqrt x <= y.
Proof.
  intros Hy H. rewrite <- (sqrt_square y Hy). apply sqrt_le_1_alt. exact H.
Qed.

Lemma is_road_at_cell_center_aux (g : TrackGrid) (r c : nat) :
  10 <= tile_size g -> (r < rows g)%nat -> (c < cols g)%nat ->
  is_road (tile_at g r c) = true -> is_road_at g (cell_center g r c) = true.
Proof.
  intros Hts Hr Hc Hroad. unfold is_road_at.
  rewrite world_to_cell_cell_center by (assumption || lra).
  unfold is_road_in_cell. rewrite Hroad. cbn [negb].
  set (ts := tile_size g) in *.
  assert (Hcorner : sqrt ((ts * 0.5) * (ts * 0.5) + (ts * 0.5) * (ts * 0.5)) <= ts - WALL_THICKNESS * 0.5).
  { apply sqrt_le_of_sq; unfold WALL_THICKNESS; nra. }
  unfold corner_arc_params, WALL_THICKNESS in *.
  destruct (tile_at g r c); try discriminate Hroad; cbn [is_corner open_edges negb andb];
    repeat match goal with
      | |- context [Rlt_dec ?a ?b] => destruct (Rlt_dec a b)
      | |- context [Rle_dec ?a ?b] => destruct (Rle_dec a b)
      end; cbn [andb negb]; try reflexivity;
    try (unfold cell_center in *; cbn [vx vy] in *; lra);
    exfalso; match goal with
    | H : ~ vdistance _ _ <= _ |- _ => apply H
    end;
    unfold vdistance, vlength, length_squared, vdot, vsub, cell_center; cbn [vx vy];
    (replace (_ * _ + _ * _) with ((ts * 0.5) * (ts * 0.5) + (ts * 0.5) * (ts * 0.5)) by ring);
    exact Hcorner.
Qed.

(** The centre of every road tile inside the grid is driveable once the
    tiles are at least [10] wide: the edge insets of half the wall
    thickness, and the corner arc test [distance <= tile_size - 2.5], leave
    the centre inside. *)
Theorem is_road_at_cell_center (g : TrackGrid) (r c : nat) :
  10 <= tile_size g -> (r < rows g)%nat -> (c < cols g)%nat ->
  is_road (tile_at g r c) = true -> is_road_at g (cell_center g r c) = true.
Proof. apply is_road_at_cell_center_aux. Qed.

(** [is_road_at] holds only inside the grid, in a road tile: points outside
    the grid, or in an [Empty] tile, are never driveable. *)
Theorem is_road_at_inside_road_tile (g : TrackGrid) (w : Vec2) :
  is_road_at g w = true ->
  exists r c, world_to_cell g w = Some (r, c) /\ (r < rows g)%nat /\ (c < cols g)%nat /\
              is_road (tile_at g r c) = true.
Proof.
  unfold is_road_at. destruct (world_to_cell g w) as [[r c]|] eqn:E; [|discriminate].
  intros H. exists r, c. split; [reflexivity|].
  unfold world_to_cell in E.
  destruct (Rlt_dec _ 0); [discriminate|]. destruct (Rlt_dec _ 0); [discriminate|].
  destruct (Nat.leb_spec (rows g) (as_usize ((vy (origin g) - vy w) / tile_size g))); [discriminate|].
  destruct (Nat.leb_spec (cols g) (as_usize ((vx w - vx (origin g)) / tile_size g))); [discriminate|].
  simpl in E. inversion E; subst r c. split; [assumption|]. split; [assumption|].
  unfold is_road_in_cell in H. destruct (is_road _); [reflexivity | discriminate].
Qed.

(* ------------------------------------------------------------------ *)
(** ** Raycast sensor *)

Definition ray_point (origin dir : Vec2) (d : R) : Vec2 := vadd origin (vscale dir d).

Lemma refine_loop_bracket (g : TrackGrid) (origin dir : Vec2) (k : nat) (inside outside : R) :
  inside <= outside ->
  exists outside',
    inside <= refine_loop g origin dir k inside outside <= outside' /\ outside' <= outside /\
    outside' - refine_loop g origin dir k inside outside = (outside - inside) / 2 ^ k /\
    (refine_loop g origin dir k inside outside = inside \/
     is_road_at g (ray_point origin dir (refine_loop g origin dir k inside outside)) = true) /\
    (outside' = outside \/ is_road_at g (ray_point origin dir outside') = false).
Proof.
  revert inside outside. induction k as [|k IH]; intros inside outside Hio.
  - exists outside. simpl. split; [lra|]. split; [lra|]. split; [field|].
    split; left; reflexivity.
  - simpl. set (mid := 0.5 * (inside + outside)).
    assert (Hp : 2 ^ k <> 0) by (apply pow_nonzero; lra).
    assert (Hm1 : inside <= mid <= outside) by (unfold mid; lra).
    destruct (is_road_at g (vadd origin (vscale dir mid))) eqn:Hmid.
    + destruct (IH mid outside ltac:(lra)) as (o & (H1 & H2) & H3 & H4 & H5 & H6).
      cbv beta iota. exists o. split; [split; [lra | exact H2]|]. split; [exact H3|].
      split; [rewrite H4; unfold mid; replace 0.5 with (/ 2) by lra; field; exact Hp|].
      split; [destruct H5 as [->|H5]; right; assumption | exact H6].
    + destruct (IH inside mid ltac:(lra)) as (o & (H1 & H2) & H3 & H4 & H5 & H6).
      cbv beta iota. exists o. split; [split; [exact H1 | exact H2]|]. split; [lra|].
      split; [rewrite H4; unfold mid; replace 0.5 with (/ 2) by lra; field; exact Hp|].
      split; [exact H5 | destruct H6 as [->|H6]; right; assumption].
Qed.

(** [refine_boundary_distance] brackets the road boundary: from
    [inside <= outside] its eight bisection steps return a distance [d] in
    [[inside, outside]] with an [outside'] in [[d, outside]] at distance
    [(outside - inside) / 256] from it, where [d] is [inside] or a sampled
    road point and [outside'] is [outside] or a sampled off-road point. *)
Theorem refine_boundary_distance_bracket (g : TrackGrid) (origin dir : Vec2) (inside outside : R) :
  inside <= outside ->
  let d := refine_boundary_distance g origin dir inside outside in
  exists outside',
    inside <= d <= outside' /\ outside' <= outside /\ outside' - d = (outside - inside) / 256 /\
    (d = inside \/ is_road_at g (ray_point origin dir d) = true) /\
    (outside' = outside \/ is_road_at g (ray_point origin dir outside') = false).
Proof.
  intros Hio. unfold refine_boundary_distance.
  destruct (refine_loop_bracket g origin dir 8 inside outside Hio) as (o & H).
  exists o. replace 256 with (2 ^ 8) by (simpl; ring). exact H.
Qed.

Lemma march_range (g : TrackGrid) (origin dir : Vec2) (max_range step : R) (fuel : nat) (prev dist : R) :
  0 < step -> 0 <= prev <= dist -> 0 <= max_range ->
  0 <= fst (march g origin dir max_range step fuel prev dist) <= max_range /\
  snd (march g origin dir max_range step fuel prev dist) =
    ray_point origin dir (fst (march g origin dir max_range step fuel prev dist)).
Proof.
  intros Hs. revert prev dist. induction fuel as [|f IH]; intros prev dist Hpd Hm; simpl.
  - split; [lra | reflexivity].
  - destruct (Rle_dec dist max_range) as [Hle|]; [|simpl; split; [lra | reflexivity]].
    destruct (is_road_at g (vadd origin (vscale dir dist))); simpl.
    + apply IH; [lra | exact Hm].
    + unfold refine_boundary_distance.
      destruct (refine_loop_bracket g origin dir 8 prev dist ltac:(lra)) as (o & (H1 & H2) & H3 & _).
      split; [lra | reflexivity].
Qed.

Lemma ray_point_zero (origin : Vec2) : ray_point origin vzero 0 = origin.
Proof. destruct origin as [x y]. unfold ray_point, vadd, vscale, vzero. simpl. f_equal; ring. Qed.

(** For a non-negative range, [raycast_to_road_boundary] returns a distance
    within [[0, max_range]] and the hit point at that distance along the
    normalised direction (the origin itself for a zero direction). *)
Theorem raycast_distance_in_range (g : TrackGrid) (origin direction : Vec2) (max_range step : R) :
  0 <= max_range ->
  let '(d, hit) := raycast_to_road_boundary g origin direction max_range step in
  0 <= d <= max_range /\ hit = ray_point origin (normalize_or_zero direction) d.
Proof.
  intros Hm. unfold raycast_to_road_boundary.
  destruct (is_zero_vec (normalize_or_zero direction)) eqn:Hz.
  - split; [lra|]. unfold is_zero_vec in Hz.
    destruct (normalize_or_zero direction) as [x y].
    destruct (Req_dec_T (vx (mkVec2 x y)) 0); [|discriminate].
    destruct (Req_dec_T (vy (mkVec2 x y)) 0); [|discriminate].
    simpl in *. subst. symmetry. apply ray_point_zero.
  - pose proof (Rmax_r step 0.5).
    pose proof (march_range g origin (normalize_or_zero direction) max_range (Rmax step 0.5)
                  (march_fuel max_range (Rmax step 0.5)) 0 (Rmax step 0.5) ltac:(lra) ltac:(lra) Hm) as [H1 H2].
    destruct (march _ _ _ _ _ _ _ _). simpl in *. split; [exact H1 | exact H2].
Qed.

(* ------------------------------------------------------------------ *)
(** ** Angle wrapping *)

Lemma angle_fuel_bound (x : R) : Rabs x + 2 * PI < 2 * PI * INR (angle_fuel x).
Proof.
  unfold angle_fuel. pose proof PI_RGT_0 as Hpi.
  set (q := Rabs x / (2 * PI)).
  assert (Hq : 0 <= q) by (unfold q, Rdiv; apply Rmult_le_pos; [apply Rabs_pos | left; apply Rinv_0_lt_compat; lra]).
  destruct (archimed q) as [Hup _].
  assert (Hz : (0 <= up q)%Z) by (apply le_IZR; lra).
  rewrite S_INR, INR_IZR_INZ, Z2Nat.id by exact Hz.
  assert (Hx : Rabs x = q * (2 * PI)) by (unfold q; field; lra).
  rewrite Hx. nra.
Qed.

Lemma wrap_angle_down_spec (n : nat) (a : R) :
  a <= PI + 2 * PI * INR n ->
  wrap_angle_down n a <= PI /\ (exists k : nat, wrap_angle_down n a = a - 2 * PI * INR k) /\
  (- PI <= a -> - PI <= wrap_angle_down n a).
Proof.
  pose proof PI_RGT_0. revert a. induction n as [|n IH]; intros a Ha; simpl.
  - simpl in Ha. split; [lra|]. split; [exists 0%nat; simpl; ring | lra].
  - destruct (Rlt_dec PI a).
    + rewrite S_INR in Ha. destruct (IH (a - 2 * PI) ltac:(lra)) as (H1 & (k & Hk) & H3).
      split; [exact H1|]. split; [exists (S k); rewrite Hk, S_INR; ring | intros; apply H3; lra].
    + split; [lra|]. split; [exists 0%nat; simpl; ring | lra].
Qed.

Lemma wrap_angle_up_spec (n : nat) (a : R) :
  - PI - 2 * PI * INR n <= a ->
  - PI <= wrap_angle_up n a /\ (exists k : nat, wrap_angle_up n a = a + 2 * PI * INR k) /\
  (a <= PI -> wrap_angle_up n a <= PI).
Proof.
  pose proof PI_RGT_0. revert a. induction n as [|n IH]; intros a Ha; simpl.
  - simpl in Ha. split; [lra|]. split; [exists 0%nat; simpl; ring | lra].
  - destruct (Rlt_dec a (- PI)).
    + rewrite S_INR in Ha. destruct (IH (a + 2 * PI) ltac:(lra)) as (H1 & (k & Hk) & H3).
      split; [exact H1|]. split; [exists (S k); rewrite Hk, S_INR; ring | intros; apply H3; lra].
    + split; [lra|]. split; [exists 0%nat; simpl; ring | lra].
Qed.

Lemma wrap_angle_spec (a : R) :
  - PI <= wrap_angle a <= PI /\ exists k : Z, wrap_angle a = a + 2 * PI * IZR k.
Proof.
  unfold wrap_angle. pose proof PI_RGT_0.
  pose proof (angle_fuel_bound a) as Fa. pose proof (Rle_abs a).
  destruct (wrap_angle_down_spec (angle_fuel a) a ltac:(lra)) as (D1 & (k1 & Hk1) & _).
  set (a1 := wrap_angle_down (angle_fuel a) a) in *.
  pose proof (angle_fuel_bound a1) as Fa1. pose proof (Rle_abs (- a1)). rewrite Rabs_Ropp in *.
  destruct (wrap_angle_up_spec (angle_fuel a1) a1 ltac:(lra)) as (U1 & (k2 & Hk2) & U3).
  split; [split; [exact U1 | apply U3; exact D1]|].
  exists (Z.of_nat k2 - Z.of_nat k1)%Z. rewrite Hk2, Hk1, minus_IZR, <- !INR_IZR_INZ. ring.
Qed.

(** [wrap_angle] (the sensor's angle normalisation) returns an angle in the
    closed interval [[-PI, PI]] that differs from its input by a whole
    number of turns. *)
Theorem wrap_angle_range (a : R) :
  - PI <= wrap_angle a <= PI /\ exists k : Z, wrap_angle a = a + 2 * PI * IZR k.
Proof. apply wrap_angle_spec. Qed.

Lemma wrap_to_pi_up_spec (n : nat) (a : R) :
  - PI - 2 * PI * INR n < a ->
  - PI < wrap_to_pi_up n a /\ (exists k : nat, wrap_to_pi_up n a = a + 2 * PI * INR k) /\
  (a <= PI -> wrap_to_pi_up n a <= PI).
Proof.
  pose proof PI_RGT_0. revert a. induction n as [|n IH]; intros a Ha; simpl.
  - simpl in Ha. split; [lra|]. split; [exists 0%nat; simpl; ring | lra].
  - destruct (Rle_dec a (- PI)).
    + rewrite S_INR in Ha. destruct (IH (a + 2 * PI) ltac:(lra)) as (H1 & (k & Hk) & H3).
      split; [exact H1|]. split; [exists (S k); rewrite Hk, S_INR; ring | intros; apply H3; lra].
    + split; [lra|]. split; [exists 0%nat; simpl; ring | lra].
Qed.

Lemma wrap_to_pi_down_spec (n : nat) (a : R) :
  a <= PI + 2 * PI * INR n ->
  wrap_to_pi_down n a <= PI /\ (exists k : nat, wrap_to_pi_down n a = a - 2 * PI * INR k) /\
  (- PI < a -> - PI < wrap_to_pi_down n a).
Proof.
  pose proof PI_RGT_0. revert a. induction n as [|n IH]; intros a Ha; simpl.
  - simpl in Ha. split; [lra|]. split; [exists 0%nat; simpl; ring | lra].
  - destruct (Rlt_dec PI a).
    + rewrite S_INR in Ha. destruct (IH (a - 2 * PI) ltac:(lra)) as (H1 & (k & Hk) & H3).
      split; [exact H1|]. split; [exists (S k); rewrite Hk, S_INR; ring | intros; apply H3; lra].
    + split; [lra|]. split; [exists 0%nat; simpl; ring | lra].
Qed.

(** [wrap_to_pi] (used for the corner arcs of the centreline) returns an
    angle in the half-open interval [(-PI, PI]] that differs from its input
    by a whole number of turns. *)
Theorem wrap_to_pi_range (a : R) :
  - PI < wrap_to_pi a <= PI /\ exists k : Z, wrap_to_pi a = a + 2 * PI * IZR k.
Proof.
  unfold wrap_to_pi. pose proof PI_RGT_0.
  pose proof (angle_fuel_bound a) as Fa. pose proof (Rle_abs (- a)). rewrite Rabs_Ropp in *.
  destruct (wrap_to_pi_up_spec (angle_fuel a) a ltac:(lra)) as (U1 & (k1 & Hk1) & _).
  set (a1 := wrap_to_pi_up (angle_fuel a) a) in *.
  pose proof (angle_fuel_bound a1) as Fa1. pose proof (Rle_abs a1).
  destruct (wrap_to_pi_down_spec (angle_fuel a1) a1 ltac:(lra)) as (D1 & (k2 & Hk2) & D3).
  split; [split; [apply D3; exact U1 | exact D1]|].
  exists (Z.of_nat k1 - Z.of_nat k2)%Z. rewrite Hk2, Hk1, minus_IZR, <- !INR_IZR_INZ. ring.
Qed.

(** The heading error [signed_angle_between] reports always lies in
    [[-PI, PI]]; it is [0] when either vector is zero. *)
Theorem signed_angle_between_range (from to : Vec2) :
  - PI <= signed_angle_between from to <= PI /\
  (from = vzero \/ to = vzero -> signed_angle_between from to = 0).
Proof.
  pose proof PI_RGT_0. unfold signed_angle_between.
  assert (Hz : forall v, v = vzero -> is_zero_vec (normalize_or_zero v) = true).
  { intros v ->. unfold normalize_or_zero, vlength, length_squared, vdot, vzero. cbn [vx vy].
    replace (0 * 0 + 0 * 0) with 0 by ring. rewrite sqrt_0.
    destruct (Rlt_dec 0 0); [lra|]. unfold is_zero_vec. cbn [vx vy].
    destruct (Req_dec_T 0 0); [reflexivity | congruence]. }
  split.
  - destruct (is_zero_vec _ || is_zero_vec _); [lra|].
    destruct (wrap_angle_spec (to_angle (normalize_or_zero to) - to_angle (normalize_or_zero from)))
      as [Hr _]. exact Hr.
  - intros [Hf|Ht]; [rewrite (Hz from Hf) | rewrite (Hz to Ht), orb_true_r]; reflexivity.
Qed.

(* ------------------------------------------------------------------ *)
(** ** Tiles *)

(** [TilePart::open_edges]: [Empty] has no open edge and every other tile
    has at least two, so no road tile is a dead end by itself; the tiles
    [is_corner] selects are exactly those open on one of north/south and on
    one of east/west. *)
Theorem open_edges_shape (t : TilePart) :
  (is_road t = false <-> open_edges t = (false, false, false, false)) /\
  (is_road t = true -> (2 <= open_count t)%nat) /\
  (is_corner t = true <-> xorb (open_n t) (open_s t) && xorb (open_e t) (open_w t) = true).
Proof. destruct t; cbv; repeat split; (congruence || lia || discriminate || auto). Qed.

(* ------------------------------------------------------------------ *)
(** ** Actions *)

Lemma clamp_in_range (x lo hi : R) : lo <= x <= hi -> clamp x lo hi = x.
Proof.
  intros H. unfold clamp. destruct (Rlt_dec x lo); [lra|]. destruct (Rlt_dec hi x); [lra | reflexivity].
Qed.

Lemma clamp_idem (x lo hi : R) : lo <= hi -> clamp (clamp x lo hi) lo hi = clamp x lo hi.
Proof. intros H. apply clamp_in_range, clamp_bounds, H. Qed.

(** [CarAction::clamped] puts steering in [[-1, 1]] and throttle in
    [[0, 1]], is idempotent, and leaves an action already in range
    unchanged. *)
Theorem clamped_range_idem (a : CarAction) :
  -1 <= steering (clamped a) <= 1 /\ 0 <= throttle (clamped a) <= 1 /\
  clamped (clamped a) = clamped a /\
  (-1 <= steering a <= 1 -> 0 <= throttle a <= 1 -> clamped a = a).
Proof.
  unfold clamped; cbn [steering throttle].
  split; [apply clamp_bounds; lra|]. split; [apply clamp_bounds; lra|].
  split; [rewrite !clamp_idem by lra; reflexivity|].
  intros Hs Ht. rewrite !clamp_in_range by assumption. destruct a; reflexivity.
Qed.

(** [action_smoothing_system] never changes [desired], always leaves
    [applied] in the clamped ranges, and with smoothing disabled copies the
    clamped desired action into [applied]. *)
Theorem action_smoothing_applied_in_range (dt : R) (sm : ActionSmoothing) (st : ActionState) :
  let st' := action_smoothing dt sm st in
  desired st' = desired st /\
  -1 <= steering (applied st') <= 1 /\ 0 <= throttle (applied st') <= 1 /\
  (enabled sm = false -> applied st' = clamped (desired st)).
Proof.
  unfold action_smoothing. destruct (enabled sm); cbn [negb applied desired].
  - split; [reflexivity|]. unfold clamped at 1; cbn [steering throttle].
    split; [apply clamp_bounds; lra|]. split; [apply clamp_bounds; lra|]. discriminate.
  - split; [reflexivity|]. unfold clamped at 1; cbn [steering throttle].
    split; [apply clamp_bounds; lra|]. split; [apply clamp_bounds; lra|]. reflexivity.
Qed.

Lemma exp_neg_unit (x : R) : 0 <= x -> 0 < exp (- x) <= 1.
Proof.
  intros Hx. split; [apply exp_pos|]. rewrite <- exp_0. destruct Hx as [Hx|<-].
  - left. apply exp_increasing. lra.
  - rewrite Ropp_0. lra.
Qed.

Lemma clamp_between (a t alpha lo hi : R) :
  lo <= t <= hi -> 0 <= alpha <= 1 ->
  Rmin a t <= clamp (a + (t - a) * alpha) lo hi <= Rmax a t.
Proof.
  intros Ht Hal. set (v := a + (t - a) * alpha).
  assert (Hv : Rmin a t <= v <= Rmax a t).
  { unfold v, Rmin, Rmax. destruct (Rle_dec a t); split; nra. }
  pose proof (Rmin_r a t). pose proof (Rmax_r a t).
  unfold clamp. destruct (Rlt_dec v lo); destruct (Rlt_dec hi _); lra.
Qed.

(** With smoothing enabled and [dt >= 0], each component of the new
    [applied] action lies between the old applied value and the clamped
    desired value, so smoothing never overshoots its target; with [dt = 0]
    the applied action is only clamped. *)
Theorem action_smoothing_moves_toward_target (dt : R) (sm : ActionSmoothing) (st : ActionState) :
  0 <= dt -> enabled sm = true ->
  let a := applied st in
  let t := clamped (desired st) in
  let a' := applied (action_smoothing dt sm st) in
  Rmin (steering a) (steering t) <= steering a' <= Rmax (steering a) (steering t) /\
  Rmin (throttle a) (throttle t) <= throttle a' <= Rmax (throttle a) (throttle t) /\
  (dt = 0 -> a' = clamped a).
Proof.
  intros Hdt Hen. unfold action_smoothing. rewrite Hen. cbn [negb applied].
  set (tau := Rmax (time_constant_s sm) (1 / 10000)).
  assert (Htau : 0 < tau) by (unfold tau; pose proof (Rmax_r (time_constant_s sm) (1 / 10000)); lra).
  assert (Hq : 0 <= dt / tau) by (unfold Rdiv; apply Rmult_le_pos; [lra | left; apply Rinv_0_lt_compat; lra]).
  pose proof (exp_neg_unit _ Hq) as He. replace (- dt / tau) with (- (dt / tau)) by (unfold Rdiv; ring).
  assert (Hal : 0 <= 1 - exp (- (dt / tau)) <= 1) by lra.
  pose proof (clamp_bounds (steering (desired st)) (-1) 1 ltac:(lra)).
  pose proof (clamp_bounds (throttle (desired st)) 0 1 ltac:(lra)).
  unfold clamped at 1 3 4; cbn [steering throttle].
  split; [apply clamp_between; assumption|]. split; [apply clamp_between; assumption|].
  intros ->. unfold Rdiv. rewrite Rmult_0_l, Ropp_0, exp_0, Rminus_diag, !Rmult_0_r, !Rplus_0_r.
  reflexivity.
Qed.

(* ------------------------------------------------------------------ *)
(** ** Observation vector *)

(** With positive normalisers and [NUM_RAYS] ray readings,
    [build_observation_vector_system] writes [NUM_RAYS + 3] values: the ray
    entries and the speed entry lie in [[0, 1]], the heading-error and
    angular-velocity entries in [[-1, 1]], and a ray reading within
    [[0, ray_max_range]] is written as its ratio to [ray_max_range]. *)
Theorem build_observation_vector_ranges (config : ObservationConfig) (sensors : SensorReadings) :
  0 < ray_max_range config -> 0 < speed_norm_max config -> 0 < angular_velocity_norm_max config ->
  length (ray_distances sensors) = NUM_RAYS ->
  let v := build_observation_vector config sensors in
  length v = (NUM_RAYS + 3)%nat /\
  (forall i, (i <= NUM_RAYS)%nat -> 0 <= nth i v 0 <= 1) /\
  (forall i, (NUM_RAYS < i < NUM_RAYS + 3)%nat -> -1 <= nth i v 0 <= 1) /\
  (forall i, (i < NUM_RAYS)%nat ->
     0 <= nth i (ray_distances sensors) 0 <= ray_max_range config ->
     nth i v 0 = nth i (ray_distances sensors) 0 / ray_max_range config).
Proof.
  intros Hr _ _ Hlen. unfold build_observation_vector.
  set (f := fun distance => clamp (distance / ray_max_range config) 0 1).
  assert (Hnth : forall i, (i < NUM_RAYS)%nat ->
            nth i (map f (ray_distances sensors) ++ [clamp (speed sensors / speed_norm_max config) 0 1;
               clamp (heading_error sensors / PI) (-1) 1;
               clamp (angular_velocity sensors / angular_velocity_norm_max config) (-1) 1]) 0
            = f (nth i (ray_distances sensors) 0)).
  { intros i Hi. rewrite app_nth1 by (rewrite length_map; lia).
    replace 0 with (f 0) at 1 by (unfold f; rewrite Rdiv_0_l, clamp_in_range by lra; reflexivity).
    apply map_nth. }
  split; [rewrite length_app, length_map, Hlen; reflexivity|].
  split; [|split].
  - intros i Hi. destruct (Nat.eq_dec i NUM_RAYS) as [->|Hne].
    + rewrite app_nth2 by (rewrite length_map; lia). rewrite length_map, Hlen, Nat.sub_diag.
      apply clamp_bounds; lra.
    + rewrite Hnth by lia. apply clamp_bounds; lra.
  - intros i Hi. rewrite app_nth2 by (rewrite length_map; lia). rewrite length_map, Hlen.
    unfold NUM_RAYS in *. destruct (Nat.eq_dec i 12) as [->|Hne]; simpl.
    + apply clamp_bounds; lra.
    + replace (i - 11)%nat with 2%nat by lia. simpl. apply clamp_bounds; lra.
  - intros i Hi Hd. rewrite Hnth by exact Hi. unfold f. apply clamp_in_range. split.
    + unfold Rdiv. apply Rmult_le_pos; [lra | left; apply Rinv_0_lt_compat; exact Hr].
    + apply (Rmult_le_reg_r (ray_max_range config)); [exact Hr|].
      unfold Rdiv. rewrite Rmult_assoc, Rinv_l, Rmult_1_r by lra. lra.
Qed.

(* ------------------------------------------------------------------ *)
(** ** Kinematics in real arithmetic *)

Lemma fclamp_R (x lo hi : R) : fclamp x lo hi = clamp x lo hi.
Proof.
  unfold fclamp, clamp. simpl. destruct (Rlt_dec x lo); destruct (Rlt_dec hi _); reflexivity.
Qed.

(** One [step_car_dynamics] step turns the car by at most
    [|rotation_speed| * |dt|], whatever the steering input. *)
Theorem step_car_dynamics_heading_bound (st : CarKinematicState R) (steering throttle dt : R)
  (params : CarDynamicsParams R) :
  Rabs (heading (step_car_dynamics st steering throttle dt params) - heading st)
  <= Rabs (rotation_speed params) * Rabs dt.
Proof.
  unfold step_car_dynamics. cbn [heading]. rewrite fclamp_R.
  repeat change (fadd ?a ?b) with (a + b). repeat change (fmul ?a ?b) with (a * b).
  change (fneg ?a) with (- a). change (@fminus_one R _) with (-1). change (@fone R _) with 1.
  pose proof (clamp_bounds steering (-1) 1 ltac:(lra)) as Hc.
  replace (heading st + - clamp steering (-1) 1 * rotation_speed params * dt - heading st)
    with (- clamp steering (-1) 1 * (rotation_speed params * dt)) by ring.
  rewrite Rabs_mult, Rabs_Ropp, Rabs_mult, <- Rmult_1_l.
  apply Rmult_le_compat_r; [apply Rmult_le_pos; apply Rabs_pos|].
  apply Rabs_le. lra.
Qed.

(** A step with [dt = 0] leaves position and heading unchanged but still
    multiplies the velocity by [drag]: the drag factor is applied once per
    step, independently of [dt]. *)
Theorem step_car_dynamics_zero_dt (st : CarKinematicState R) (steering throttle : R)
  (params : CarDynamicsParams R) :
  step_car_dynamics st steering throttle 0 params =
  mkState (position st)
    (mkFVec2 (fvx (velocity st) * drag params) (fvy (velocity st) * drag params)) (heading st).
Proof.
  destruct st as [[px py] [vx0 vy0] h]. unfold step_car_dynamics, fvadd, fvscale.
  cbn [position velocity heading fvx fvy]. simpl.
  destruct (Rlt_dec 0 throttle); simpl; f_equal; f_equal; ring.
Qed.

(** Without throttle ([throttle <= 0]) no thrust is added: the squared
    speed after the step is [drag^2] times the squared speed before. *)
Theorem step_car_dynamics_coasting_speed (st : CarKinematicState R) (steering throttle dt : R)
  (params : CarDynamicsParams R) :
  throttle <= 0 ->
  let v := velocity (step_car_dynamics st steering throttle dt params) in
  fvx v * fvx v + fvy v * fvy v =
  drag params * drag params * (fvx (velocity st) * fvx (velocity st) + fvy (velocity st) * fvy (velocity st)).
Proof.
  intros Ht. unfold step_car_dynamics, fvscale. simpl.
  destruct (Rlt_dec 0 throttle); [lra|]. simpl. ring.
Qed.

(* ------------------------------------------------------------------ *)
(** ** Episode bookkeeping *)

Lemma pop_front_while_skipn (fuel : nat) (buffer : list R) (limit : nat) :
  (length buffer - limit <= fuel)%nat ->
  pop_front_while fuel buffer limit = skipn (length buffer - limit) buffer.
Proof.
  revert buffer. induction fuel as [|f IH]; intros buffer Hf; simpl.
  - replace (length buffer - limit)%nat with 0%nat by lia. reflexivity.
  - destruct (Nat.ltb_spec limit (length buffer)) as [Hlt|Hge].
    + destruct buffer as [|x rest]; [simpl in Hlt; lia|].
      change (length (x :: rest)) with (S (length rest)) in *.
      rewrite IH by lia. replace (S (length rest) - limit)%nat with (S (length rest - limit)) by lia.
      reflexivity.
    + replace (length buffer - limit)%nat with 0%nat by lia. reflexivity.
Qed.

(** [push_with_limit] appends the value and then drops entries from the
    front until at most [max limit 1] remain: the result is the last
    [min (len + 1) (max limit 1)] entries of [buffer ++ [value]], so it is
    never empty and always ends with [value]. *)
Theorem push_with_limit_spec (buffer : list R) (value : R) (limit : nat) :
  let b := push_with_limit buffer value limit in
  b = skipn (S (length buffer) - Nat.max limit 1) (buffer ++ [value]) /\
  length b = Nat.min (S (length buffer)) (Nat.max limit 1) /\
  last b 0 = value.
Proof.
  unfold push_with_limit. cbv zeta. rewrite pop_front_while_skipn by lia.
  rewrite length_app. change (length [value]) with 1%nat. rewrite Nat.add_1_r.
  split; [reflexivity|]. split.
  - rewrite length_skipn, length_app. change (length [value]) with 1%nat. lia.
  - rewrite skipn_app. replace (S (length buffer) - Nat.max limit 1 - length buffer)%nat with 0%nat by lia.
    simpl. apply last_last.
Qed.

Lemma fold_left_Rplus (l : list R) (acc : R) : fold_left Rplus l acc = acc + fold_right Rplus 0 l.
Proof.
  revert acc. induction l as [|x l IH]; intros acc; simpl; [ring|]. rewrite IH. ring.
Qed.

Lemma fold_right_Rplus_bounds (l : list R) (lo hi : R) :
  Forall (fun x => lo <= x <= hi) l ->
  lo * INR (length l) <= fold_right Rplus 0 l <= hi * INR (length l).
Proof.
  induction 1 as [|x l Hx _ IH]; cbn [length fold_right]; [simpl; lra|]. rewrite S_INR. lra.
Qed.

(** The mean [mean] stores for a non-empty buffer lies between any lower
    and upper bound of its entries. *)
Theorem mean_bounds (values : list R) (lo hi : R) :
  values <> [] -> Forall (fun x => lo <= x <= hi) values -> lo <= mean values <= hi.
Proof.
  intros Hne Hall.
  assert (Hn : 0 < INR (length values)).
  { destruct values as [|x l]; [congruence|]. simpl length. rewrite S_INR. pose proof (pos_INR (length l)). lra. }
  assert (Hm : mean values = fold_right Rplus 0 values / INR (length values)).
  { destruct values; [congruence|]. unfold mean. rewrite fold_left_Rplus, Rplus_0_l. reflexivity. }
  rewrite Hm. pose proof (fold_right_Rplus_bounds _ _ _ Hall) as [H1 H2].
  split.
  - apply (Rmult_le_reg_r (INR (length values))); [exact Hn|].
    unfold Rdiv. rewrite Rmult_assoc, Rinv_l, Rmult_1_r by lra. lra.
  - apply (Rmult_le_reg_r (INR (length values))); [exact Hn|].
    unfold Rdiv. rewrite Rmult_assoc, Rinv_l, Rmult_1_r by lra. lra.
Qed.

(** The case analysis of one [episode_loop] tick: crash flag, arming, the
    two wrap thresholds, the armed flag and the timeout test. *)
Ltac episode_cases config fraction crashed st dt :=
  unfold episode_loop, finalize_episode in *; cbv zeta in *;
  destruct crashed;
  destruct (Rle_dec (lap_arm_fraction config) fraction);
  destruct (lap_armed st) eqn:?;
  destruct (Rle_dec (lap_wrap_from_fraction config) (previous_progress_fraction st));
  destruct (Rle_dec fraction (lap_wrap_to_fraction config));
  destruct (Rle_dec (timeout_s config) (IZR (u32_saturating_add (ticks_in_episode st) 1) * dt));
  cbn [andb negb EpisodeEndReason_eqb] in *.

(** How [episode_loop_system] ends an episode: it reports [Crash] exactly
    when a collision was read; it resets the car to the spawn exactly for
    [LapComplete] and [Timeout]; [LapComplete] needs the previous fraction
    at or past [lap_wrap_from_fraction], the new one at or before
    [lap_wrap_to_fraction] and the lap armed (before or on this tick);
    [Timeout] means the elapsed ticks times [dt] reached [timeout_s]; and a
    tick that ends nothing is one without a crash before the timeout. *)
Theorem episode_loop_end_reason (config : EpisodeConfig) (dt fraction : R) (crashed : bool)
  (st : EpisodeState) (avg : EpisodeMovingAverages)
  (st' : EpisodeState) (avg' : EpisodeMovingAverages) (reason : option EpisodeEndReason)
  (reset_car : bool) :
  episode_loop config dt fraction crashed st avg = (st', avg', reason, reset_car) ->
  (reason = Some Crash <-> crashed = true) /\
  (reset_car = true <-> reason = Some LapComplete \/ reason = Some Timeout) /\
  (reason = Some LapComplete ->
     lap_wrap_from_fraction config <= previous_progress_fraction st /\
     fraction <= lap_wrap_to_fraction config /\
     (lap_armed st = true \/ lap_arm_fraction config <= fraction)) /\
  (reason = Some Timeout ->
     timeout_s config <= IZR (u32_saturating_add (ticks_in_episode st) 1) * dt) /\
  (reason = None ->
     crashed = false /\ IZR (u32_saturating_add (ticks_in_episode st) 1) * dt < timeout_s config).
Proof.
  intros H. episode_cases config fraction crashed st dt;
    injection H as <- <- <- <-;
    repeat split; intros; try discriminate; try tauto; try lra;
    repeat match goal with
           | H : Some _ = Some _ |- _ => injection H as H; try discriminate
           | H : _ \/ _ |- _ => destruct H as [H|H]; try discriminate
           end; auto; try lra.
Qed.

(** A tick of [episode_loop_system] that ends nothing keeps the moving
    averages and the episode number, does not reset the car, counts the
    tick, stores the new fraction as the previous one, keeps the best
    fraction as a running maximum, and with fractions in [[0, 1]] changes
    the return by the progress delta times [progress_reward_scale], where
    the delta is [fraction - previous] shifted by a whole lap into
    [[-1/2, 1/2]]. *)
Theorem episode_loop_continue (config : EpisodeConfig) (dt fraction : R) (crashed : bool)
  (st : EpisodeState) (avg : EpisodeMovingAverages)
  (st' : EpisodeState) (avg' : EpisodeMovingAverages) (reset_car : bool) :
  0 <= fraction <= 1 -> 0 <= previous_progress_fraction st <= 1 ->
  episode_loop config dt fraction crashed st avg = (st', avg', None, reset_car) ->
  avg' = avg /\ reset_car = false /\
  current_episode st' = current_episode st /\
  ticks_in_episode st' = u32_saturating_add (ticks_in_episode st) 1 /\
  previous_progress_fraction st' = fraction /\
  current_best_progress_fraction st' = Rmax (current_best_progress_fraction st) fraction /\
  current_crashes st' = current_crashes st /\
  last_end_reason st' = last_end_reason st /\
  exists (delta : R) (k : Z),
    delta = fraction - previous_progress_fraction st + IZR k /\ -1/2 <= delta <= 1/2 /\
    current_return st' = current_return st + delta * progress_reward_scale config.
Proof.
  intros Hf Hp H. episode_cases config fraction crashed st dt; try discriminate H;
    injection H as <- <- <-;
    cbn [current_episode ticks_in_episode previous_progress_fraction current_best_progress_fraction
         current_crashes last_end_reason current_return];
    (repeat split; try reflexivity);
    (destruct (Rlt_dec 0.5 (fraction - previous_progress_fraction st));
     [exists (fraction - previous_progress_fraction st - 1), (-1)%Z
     |destruct (Rlt_dec (fraction - previous_progress_fraction st) (-0.5));
       [exists (fraction - previous_progress_fraction st + 1), 1%Z
       |exists (fraction - previous_progress_fraction st), 0%Z]]);
    cbv beta iota; repeat split; simpl IZR; lra.
Qed.


(* ------------------------------------------------------------------ *)
(** ** Corner arcs *)

Lemma vdistance_polar (center : Vec2) (a r : R) :
  vdistance (vadd center (vscale (mkVec2 (cos a) (sin a)) r)) center = Rabs r.
Proof.
  unfold vdistance, vlength, length_squared, vdot, vsub, vadd, vscale. cbn [vx vy].
  replace ((vx center + cos a * r - vx center) * (vx center + cos a * r - vx center) +
           (vy center + sin a * r - vy center) * (vy center + sin a * r - vy center))
    with (Rsqr r * (Rsqr (sin a) + Rsqr (cos a))) by (unfold Rsqr; ring).
  rewrite sin2_cos2, Rmult_1_r. apply sqrt_Rsqr_abs.
Qed.

(** For a corner tile, [corner_arc_center] lies at distance [half] from the
    midpoints of both open edges of the tile (the points [cell_center +
    dir_unit d * half] that [build_polyline_points] uses as entry and
    exit), so the quarter circle of radius [half] around it joins them. *)
Theorem corner_arc_center_equidistant (t : TilePart) (d : GridDir) (c : Vec2) (half : R) :
  is_corner t = true -> open_dir t d = true -> 0 <= half ->
  vdistance (corner_arc_center t c half) (vadd c (vscale (dir_unit d) half)) = half.
Proof.
  intros Hc Ho Hh.
  assert (Hsq : forall x y, (x = 0 /\ (y = half \/ y = - half)) \/ ((x = half \/ x = - half) /\ y = 0) ->
            sqrt (x * x + y * y) = half).
  { intros x y Hxy. replace (x * x + y * y) with (Rsqr half)
      by (unfold Rsqr; destruct Hxy as [[-> [-> | ->]] | [[-> | ->] ->]]; ring).
    rewrite sqrt_Rsqr_abs. apply Rabs_right. lra. }
  destruct t; try discriminate Hc; destruct d; try discriminate Ho;
    unfold vdistance, vlength, length_squared, vdot, vsub, vadd, vscale, corner_arc_center, dir_unit;
    cbn [vx vy]; apply Hsq; [right | left | right | left | right | left | right | left];
    split; try (left; ring); try (right; ring); ring.
Qed.

Lemma push_unique_cases (points : list Vec2) (p : Vec2) :
  push_unique points p = points \/ push_unique points p = points ++ [p].
Proof.
  unfold push_unique. destruct (last_point points); [|right; reflexivity].
  destruct (Rlt_dec _ _); [left | right]; reflexivity.
Qed.

(** [push_corner_arc_samples] only appends to the points it is given: at
    most [CENTERLINE_ARC_SAMPLES] new points, each at distance [|radius|]
    from the arc centre. *)
Theorem push_corner_arc_samples_on_circle (points : list Vec2) (center : Vec2) (radius : R)
  (entry exit : Vec2) :
  exists extra,
    push_corner_arc_samples points center radius entry exit = points ++ extra /\
    (length extra <= CENTERLINE_ARC_SAMPLES)%nat /\
    Forall (fun p => vdistance p center = Rabs radius) extra.
Proof.
  unfold push_corner_arc_samples. cbv zeta.
  set (a0 := atan2 _ _). set (delta := wrap_to_pi _).
  assert (Hgen : forall (l : list nat) (acc extra : list Vec2),
    acc = points ++ extra -> Forall (fun p => vdistance p center = Rabs radius) extra ->
    exists extra',
      fold_left (fun pts i => push_unique pts (vadd center (vscale
        (mkVec2 (cos (a0 + delta * (INR i / INR CENTERLINE_ARC_SAMPLES)))
                (sin (a0 + delta * (INR i / INR CENTERLINE_ARC_SAMPLES)))) radius))) l acc
      = points ++ extra' /\ (length extra' <= length extra + length l)%nat /\
      Forall (fun p => vdistance p center = Rabs radius) extra').
  { induction l as [|i l IH]; intros acc extra -> Hall; cbn [fold_left length].
    - exists extra. split; [reflexivity|]. split; [lia | exact Hall].
    - match goal with |- context [push_unique (points ++ extra) ?q] => set (p := q) end.
      assert (Hp : vdistance p center = Rabs radius) by apply vdistance_polar.
      destruct (push_unique_cases (points ++ extra) p) as [E|E]; rewrite E.
      + destruct (IH (points ++ extra) extra eq_refl Hall) as (e & H1 & H2 & H3).
        exists e. split; [exact H1|]. split; [lia | exact H3].
      + rewrite <- app_assoc.
        destruct (IH (points ++ (extra ++ [p])) (extra ++ [p]) eq_refl) as (e & H1 & H2 & H3).
        * apply Forall_app. split; [exact Hall|]. constructor; [exact Hp | constructor].
        * exists e. split; [exact H1|]. rewrite length_app in H2. cbn [length] in H2.
          split; [lia | exact H3]. }
  destruct (Hgen (seq 1 CENTERLINE_ARC_SAMPLES) points [] ltac:(rewrite app_nil_r; reflexivity)
              (Forall_nil _)) as (e & H1 & H2 & H3).
  exists e. split; [exact H1|]. rewrite length_seq in H2. simpl in H2. split; [exact H2 | exact H3].
Qed.

(* ------------------------------------------------------------------ *)
(** ** A successful build: the four-corner loop *)

Lemma vdistance_self (p : Vec2) : vdistance p p = 0.
Proof.
  unfold vdistance, vlength, length_squared, vdot, vsub. cbn [vx vy].
  replace ((vx p - vx p) * (vx p - vx p) + (vy p - vy p) * (vy p - vy p)) with 0 by ring.
  apply sqrt_0.
Qed.

Lemma push_unique_near (l : list Vec2) (p : Vec2) :
  exists q, In q (push_unique l p) /\ vdistance q p < 1 / 1000.
Proof.
  unfold push_unique. destruct (last_point l) as [q|] eqn:Hq.
  - destruct (Rlt_dec (vdistance q p) (1 / 1000)) as [Hlt|].
    + exists q. split; [|exact Hlt]. destruct (last_point_last l q Hq) as [Hne <-].
      rewrite (app_removelast_last vzero Hne) at 2. apply in_or_app. right. left. reflexivity.
    + exists p. split; [apply in_or_app; right; left; reflexivity | rewrite vdistance_self; lra].
  - exists p. split; [apply in_or_app; right; left; reflexivity | rewrite vdistance_self; lra].
Qed.

Lemma push_unique_prefix (l : list Vec2) (p : Vec2) : exists e, push_unique l p = l ++ e.
Proof.
  destruct (push_unique_cases l p) as [E|E]; [exists []; rewrite app_nil_r | exists [p]]; exact E.
Qed.

Lemma arc_samples_prefix (l : list Vec2) center radius entry exit :
  exists e, push_corner_arc_samples l center radius entry exit = l ++ e.
Proof.
  unfold push_corner_arc_samples.
  generalize (seq 1 CENTERLINE_ARC_SAMPLES). intros is. revert l.
  induction is as [|i is IH]; intros l; [exists []; rewrite app_nil_r; reflexivity|]. cbn [fold_left].
  match goal with |- context [push_unique l ?p] => destruct (push_unique_prefix l p) as [e1 E1] end.
  rewrite E1. match goal with |- context [fold_left ?f is (l ++ e1)] => destruct (IH (l ++ e1)) as [e2 E2] end.
  rewrite E2, <- app_assoc. eexists. reflexivity.
Qed.

Lemma in_prefix (q : Vec2) (l l' : list Vec2) : In q l -> (exists e, l' = l ++ e) -> In q l'.
Proof. intros Hq [e ->]. apply in_or_app. left. exact Hq. Qed.

Lemma build_polyline_points_near (g : TrackGrid) (cells : list (nat * nat)) (dirs : list GridDir) :
  exists pts,
    (build_polyline_points g cells dirs = pts \/ build_polyline_points g cells dirs = removelast pts) /\
    forall i, (i < length cells)%nat ->
      exists q, In q pts /\ vdistance q (polyline_entry g cells dirs i) < 1 / 1000.
Proof.
  unfold build_polyline_points. destruct cells as [|c0 cs].
  - exists []. split; [left; reflexivity | intros i Hi; simpl in Hi; lia].
  - cbv zeta. cbn [length].
    set (F := fun (points : list Vec2) (i : nat) => _).
    assert (HA : forall is l, exists e, fold_left F is l = l ++ e).
    { induction is as [|i is IH]; intros l; [exists []; rewrite app_nil_r; reflexivity|].
      cbn [fold_left]. assert (Hs : exists e, F l i = l ++ e).
      { unfold F. cbv beta zeta. destruct (is_corner _).
        - match goal with |- exists e, push_corner_arc_samples (push_unique l ?p) ?c ?r ?en ?ex = _ =>
            destruct (push_unique_prefix l p) as [e1 E1];
            destruct (arc_samples_prefix (push_unique l p) c r en ex) as [e2 E2] end.
          rewrite E2, E1, <- app_assoc. eexists. reflexivity.
        - match goal with |- exists e, push_unique (push_unique l ?p) ?x = _ =>
            destruct (push_unique_prefix l p) as [e1 E1];
            destruct (push_unique_prefix (push_unique l p) x) as [e2 E2] end.
          rewrite E2, E1, <- app_assoc. eexists. reflexivity. }
      destruct Hs as [e1 E1]. rewrite E1. destruct (IH (l ++ e1)) as [e2 E2]. rewrite E2, <- app_assoc.
      eexists. reflexivity. }
    assert (HB : forall is l i, In i is ->
              exists q, In q (fold_left F is l) /\ vdistance q (polyline_entry g (c0 :: cs) dirs i) < 1 / 1000).
    { induction is as [|j is IH]; intros l i Hin; [destruct Hin|]. cbn [fold_left].
      destruct Hin as [<- | Hin]; [|exact (IH (F l j) i Hin)].
      assert (Hs : exists q, In q (F l j) /\ vdistance q (polyline_entry g (c0 :: cs) dirs j) < 1 / 1000).
      { unfold F, polyline_entry. cbv beta zeta. destruct (is_corner _).
        - match goal with |- exists q, In q (push_corner_arc_samples (push_unique l ?p) ?c ?r ?en ?ex) /\ _ =>
            destruct (push_unique_near l p) as (q & Hq & Hd);
            exists q; split; [apply (in_prefix q (push_unique l p)); [exact Hq | apply arc_samples_prefix] | exact Hd] end.
        - match goal with |- exists q, In q (push_unique (push_unique l ?p) ?x) /\ _ =>
            destruct (push_unique_near l p) as (q & Hq & Hd);
            exists q; split; [apply (in_prefix q (push_unique l p)); [exact Hq | apply push_unique_prefix] | exact Hd] end. }
      destruct Hs as (q & Hq & Hd). exists q. split; [apply (in_prefix q (F l j)); [exact Hq | apply HA] | exact Hd]. }
    exists (fold_left F (seq 0 (S (length cs))) []). split.
    + destruct (fold_left F (seq 0 (S (length cs))) []) as [|first rest]; [left; reflexivity|].
      destruct (last_point (first :: rest)); [|left; reflexivity].
      destruct (Rlt_dec _ _); [right | left]; reflexivity.
    + intros i Hi. apply HB. apply in_seq. simpl in Hi. lia.
Qed.

Lemma vdistance_coords (q p : Vec2) :
  vdistance q p < 1 / 1000 -> Rabs (vx q - vx p) < 1 / 1000 /\ Rabs (vy q - vy p) < 1 / 1000.
Proof.
  unfold vdistance, vlength, length_squared, vdot, vsub. cbn [vx vy]. intros H.
  set (dx := vx q - vx p) in *. set (dy := vy q - vy p) in *.
  split.
  - rewrite <- sqrt_Rsqr_abs. eapply Rle_lt_trans; [|exact H].
    apply sqrt_le_1_alt. unfold Rsqr. pose proof (Rle_0_sqr dy). unfold Rsqr in *. lra.
  - rewrite <- sqrt_Rsqr_abs. eapply Rle_lt_trans; [|exact H].
    apply sqrt_le_1_alt. unfold Rsqr. pose proof (Rle_0_sqr dx). unfold Rsqr in *. lra.
Qed.

Lemma corner_loop_traverse :
  traverse_cells corner_loop_grid (0, 0)%nat East =
  Ok ([(0, 0); (0, 1); (1, 1); (1, 0)]%nat, [East; South; West; North]).
Proof. vm_compute. reflexivity. Qed.

Lemma length_removelast_cons (l : list Vec2) : l <> [] -> length (removelast l) = pred (length l).
Proof.
  intros Hne. rewrite (app_removelast_last vzero Hne) at 2. rewrite length_app. simpl. lia.
Qed.

Lemma corner_loop_polyline_length :
  (3 <= length (build_polyline_points corner_loop_grid [(0, 0); (0, 1); (1, 1); (1, 0)]%nat
                  [East; South; West; North]))%nat.
Proof.
  destruct (build_polyline_points_near corner_loop_grid [(0, 0); (0, 1); (1, 1); (1, 0)]%nat
              [East; South; West; North]) as (pts & Hpts & Hnear).
  destruct (Hnear 0%nat ltac:(simpl; lia)) as (q0 & I0 & D0).
  destruct (Hnear 1%nat ltac:(simpl; lia)) as (q1 & I1 & D1).
  destruct (Hnear 2%nat ltac:(simpl; lia)) as (q2 & I2 & D2).
  destruct (Hnear 3%nat ltac:(simpl; lia)) as (q3 & I3 & D3).
  apply vdistance_coords in D0, D1, D2, D3.
  unfold polyline_entry, corner_loop_grid, cell_center, dir_unit, opposite, vadd, vscale in D0, D1, D2, D3.
  cbn -[Rabs Rmult Rplus Rminus Rdiv Ropp INR] in D0, D1, D2, D3. simpl INR in D0, D1, D2, D3.
  destruct D0 as [X0 Y0], D1 as [X1 Y1], D2 as [X2 Y2], D3 as [X3 Y3].
  apply Rabs_def2 in X0, Y0, X1, Y1, X2, Y2, X3, Y3.
  assert (Hnd : NoDup [q0; q1; q2; q3]).
  { repeat constructor; simpl; intros Hin;
      repeat (destruct Hin as [<- | Hin]); try destruct Hin; lra. }
  assert (H4 : (4 <= length pts)%nat).
  { change 4%nat with (length [q0; q1; q2; q3]). apply NoDup_incl_length; [exact Hnd|].
    intros x Hx. simpl in Hx. repeat (destruct Hx as [<- | Hx]; [assumption|]). destruct Hx. }
  destruct Hpts as [-> | ->]; [lia|].
  rewrite length_removelast_cons; [lia|]. intros ->. simpl in H4. lia.
Qed.

Lemma corner_loop_build_ok :
  exists cl, build_closed_loop corner_loop_grid (0, 0)%nat East = Ok cl.
Proof.
  unfold build_closed_loop. rewrite corner_loop_traverse.
  pose proof corner_loop_polyline_length as H3.
  destruct (Nat.ltb_spec (length (build_polyline_points corner_loop_grid [(0, 0); (0, 1); (1, 1); (1, 0)]%nat
              [East; South; West; North])) 3); [lia|].
  destruct (compute_lengths _) as [cum tot]. eexists. reflexivity.
Qed.

(* ------------------------------------------------------------------ *)
(** ** Witnesses *)

Lemma step_cell_opposite_roundtrip_witness :
  step_cell (1, 2)%nat North = Some (0, 2)%nat /\ step_cell (0, 2)%nat South = Some (1, 2)%nat.
Proof.
  split; [reflexivity|]. apply (step_cell_opposite_roundtrip (1, 2)%nat (0, 2)%nat North).
  reflexivity.
Defined.

Lemma choose_next_dir_ok_unique_witness :
  choose_next_dir corner_loop_grid (0, 1)%nat West = Ok South /\
  open_dir (tile_at corner_loop_grid 0 1) South = true /\ South <> West /\
  (forall d', open_dir (tile_at corner_loop_grid 0 1) d' = true -> d' = South \/ d' = West).
Proof.
  split; [reflexivity|].
  apply (choose_next_dir_ok_unique corner_loop_grid (0, 1)%nat West South). reflexivity.
Defined.

Lemma choose_next_dir_through_open_edge_witness :
  open_dir (tile_at corner_loop_grid 0 1) West = true /\
  ((exists d, choose_next_dir corner_loop_grid (0, 1)%nat West = Ok d) <->
   open_count (tile_at corner_loop_grid 0 1) = 2%nat) /\
  (forall e, choose_next_dir corner_loop_grid (0, 1)%nat West = Err e ->
   exists options, e = AmbiguousBranch 0 1 options).
Proof.
  split; [reflexivity|].
  apply (choose_next_dir_through_open_edge corner_loop_grid (0, 1)%nat West). reflexivity.
Defined.

Lemma traverse_cells_closed_walk_witness :
  let cells := [(0, 0); (0, 1); (1, 1); (1, 0)]%nat in
  let dirs := [East; South; West; North] in
  traverse_cells corner_loop_grid (0, 0)%nat East = Ok (cells, dirs) /\
  length cells = length dirs /\
  hd_error cells = Some (0, 0)%nat /\ hd_error dirs = Some East /\
  NoDup cells /\
  (forall c, In c cells -> tile_at corner_loop_grid (fst c) (snd c) <> Empty) /\
  (forall i, (i < length dirs)%nat ->
     step_cell (nth i cells (0, 0)%nat) (nth i dirs North) =
     Some (nth (S i) (cells ++ [(0, 0)%nat]) (0, 0)%nat)).
Proof.
  cbv zeta. split; [vm_compute; reflexivity|].
  apply (traverse_cells_closed_walk corner_loop_grid (0, 0)%nat East). vm_compute. reflexivity.
Defined.

Lemma build_closed_loop_segments_nondegenerate_witness :
  exists cl, build_closed_loop corner_loop_grid (0, 0)%nat East = Ok cl /\
    cl = centerline_of (points cl) /\ (3 <= length (points cl))%nat /\
    (forall i, (S i < length (points cl))%nat ->
       1 / 1000000 <= seg_len2 cl i /\ seg_degenerate cl i = false).
Proof.
  destruct corner_loop_build_ok as [cl Hcl]. exists cl. split; [exact Hcl|].
  apply (build_closed_loop_segments_nondegenerate corner_loop_grid (0, 0)%nat East cl Hcl).
Defined.

Lemma world_to_cell_spec_witness :
  0 < tile_size row_grid_1x3 /\
  (world_to_cell row_grid_1x3 (mkVec2 150 (-50)) = Some (0, 1)%nat <->
   ((0 < rows row_grid_1x3)%nat /\ (1 < cols row_grid_1x3)%nat /\
    in_cell row_grid_1x3 0 1 (mkVec2 150 (-50)))) /\
  ((0 < rows row_grid_1x3)%nat -> (1 < cols row_grid_1x3)%nat ->
   world_to_cell row_grid_1x3 (cell_center row_grid_1x3 0 1) = Some (0, 1)%nat).
Proof.
  assert (H : 0 < tile_size row_grid_1x3) by (simpl; lra).
  split; [exact H|]. apply (world_to_cell_spec row_grid_1x3 0 1 (mkVec2 150 (-50))). exact H.
Defined.

Lemma is_road_at_cell_center_witness :
  is_road_at row_grid_1x3 (cell_center row_grid_1x3 0 1) = true.
Proof.
  apply (is_road_at_cell_center row_grid_1x3 0 1); [simpl; lra | vm_compute; lia | vm_compute; lia | reflexivity].
Defined.

Lemma is_road_at_inside_road_tile_witness :
  is_road_at row_grid_1x3 (cell_center row_grid_1x3 0 1) = true /\
  exists r c, world_to_cell row_grid_1x3 (cell_center row_grid_1x3 0 1) = Some (r, c) /\
    (r < rows row_grid_1x3)%nat /\ (c < cols row_grid_1x3)%nat /\
    is_road (tile_at row_grid_1x3 r c) = true.
Proof.
  assert (H : is_road_at row_grid_1x3 (cell_center row_grid_1x3 0 1) = true).
  { apply is_road_at_cell_center_aux; [simpl; lra | vm_compute; lia | vm_compute; lia | reflexivity]. }
  split; [exact H|]. apply (is_road_at_inside_road_tile row_grid_1x3 _ H).
Defined.

Lemma refine_boundary_distance_bracket_witness :
  0 <= 40 /\
  let d := refine_boundary_distance row_grid_1x3 (mkVec2 150 (-50)) (mkVec2 1 0) 0 40 in
  exists outside',
    0 <= d <= outside' /\ outside' <= 40 /\ outside' - d = (40 - 0) / 256 /\
    (d = 0 \/ is_road_at row_grid_1x3 (ray_point (mkVec2 150 (-50)) (mkVec2 1 0) d) = true) /\
    (outside' = 40 \/ is_road_at row_grid_1x3 (ray_point (mkVec2 150 (-50)) (mkVec2 1 0) outside') = false).
Proof.
  split; [lra|].
  apply (refine_boundary_distance_bracket row_grid_1x3 (mkVec2 150 (-50)) (mkVec2 1 0) 0 40). lra.
Defined.

Lemma raycast_distance_in_range_witness :
  0 <= 200 /\
  let '(d, hit) := raycast_to_road_boundary row_grid_1x3 (mkVec2 150 (-50)) (mkVec2 1 0) 200 4 in
  0 <= d <= 200 /\ hit = ray_point (mkVec2 150 (-50)) (normalize_or_zero (mkVec2 1 0)) d.
Proof.
  split; [lra|].
  apply (raycast_distance_in_range row_grid_1x3 (mkVec2 150 (-50)) (mkVec2 1 0) 200 4). lra.
Defined.

Lemma action_smoothing_moves_toward_target_witness :
  let st := mkActionState (mkAction 2 1) (mkAction 0 0) in
  let sm := mkSmoothing true (12 / 100) in
  0 <= 1 / 60 /\ enabled sm = true /\
  let a := applied st in
  let t := clamped (desired st) in
  let a' := applied (action_smoothing (1 / 60) sm st) in
  Rmin (steering a) (steering t) <= steering a' <= Rmax (steering a) (steering t) /\
  Rmin (throttle a) (throttle t) <= throttle a' <= Rmax (throttle a) (throttle t) /\
  (1 / 60 = 0 -> a' = clamped a).
Proof.
  cbv zeta. split; [lra|]. split; [reflexivity|].
  apply (action_smoothing_moves_toward_target (1 / 60) (mkSmoothing true (12 / 100))
           (mkActionState (mkAction 2 1) (mkAction 0 0))); [lra | reflexivity].
Defined.

Lemma build_observation_vector_ranges_witness :
  let config := mkObsConfig 300 20 5 in
  let sensors := mkSensors (repeat 50 NUM_RAYS) 10 1 2 in
  0 < ray_max_range config /\ 0 < speed_norm_max config /\ 0 < angular_velocity_norm_max config /\
  length (ray_distances sensors) = NUM_RAYS /\
  let v := build_observation_vector config sensors in
  length v = (NUM_RAYS + 3)%nat /\
  (forall i, (i <= NUM_RAYS)%nat -> 0 <= nth i v 0 <= 1) /\
  (forall i, (NUM_RAYS < i < NUM_RAYS + 3)%nat -> -1 <= nth i v 0 <= 1) /\
  (forall i, (i < NUM_RAYS)%nat ->
     0 <= nth i (ray_distances sensors) 0 <= ray_max_range config ->
     nth i v 0 = nth i (ray_distances sensors) 0 / ray_max_range config).
Proof.
  cbv zeta. split; [simpl; lra|]. split; [simpl; lra|]. split; [simpl; lra|].
  split; [reflexivity|].
  apply (build_observation_vector_ranges (mkObsConfig 300 20 5) (mkSensors (repeat 50 NUM_RAYS) 10 1 2));
    [simpl; lra | simpl; lra | simpl; lra | reflexivity].
Defined.

Lemma step_car_dynamics_coasting_speed_witness :
  let st := mkState (mkFVec2 0 0) (mkFVec2 3 4) 0 in
  0 <= 0 /\
  let v := velocity (step_car_dynamics st (1 / 2) 0 (1 / 60) car_params) in
  fvx v * fvx v + fvy v * fvy v =
  drag car_params * drag car_params * (fvx (velocity st) * fvx (velocity st) + fvy (velocity st) * fvy (velocity st)).
Proof.
  cbv zeta. split; [lra|].
  apply (step_car_dynamics_coasting_speed (mkState (mkFVec2 0 0) (mkFVec2 3 4) 0) (1 / 2) 0 (1 / 60)
           car_params). lra.
Defined.

Lemma mean_bounds_witness :
  [1; 2; 3] <> [] /\ Forall (fun x => 0 <= x <= 3) [1; 2; 3] /\ 0 <= mean [1; 2; 3] <= 3.
Proof.
  assert (H1 : [1; 2; 3] <> []) by discriminate.
  assert (H2 : Forall (fun x => 0 <= x <= 3) [1; 2; 3]) by (repeat constructor; lra).
  split; [exact H1|]. split; [exact H2|]. apply (mean_bounds [1; 2; 3] 0 3 H1 H2).
Defined.

Lemma corner_arc_center_equidistant_witness :
  is_corner CornerNW = true /\ open_dir CornerNW East = true /\ 0 <= 50 /\
  vdistance (corner_arc_center CornerNW (mkVec2 50 (-50)) 50)
    (vadd (mkVec2 50 (-50)) (vscale (dir_unit East) 50)) = 50.
Proof.
  split; [reflexivity|]. split; [reflexivity|]. split; [lra|].
  apply (corner_arc_center_equidistant CornerNW East (mkVec2 50 (-50)) 50); [reflexivity | reflexivity | lra].
Defined.

Lemma episode_loop_end_reason_witness :
  exists st' avg' reset_car,
    episode_loop default_episode_config (1 / 60) (1 / 2) true default_episode_state
      default_moving_averages = (st', avg', Some Crash, reset_car) /\
    (Some Crash = Some Crash <-> true = true) /\
    (reset_car = true <-> Some Crash = Some LapComplete \/ Some Crash = Some Timeout) /\
    (Some Crash = Some LapComplete ->
       lap_wrap_from_fraction default_episode_config <= previous_progress_fraction default_episode_state /\
       1 / 2 <= lap_wrap_to_fraction default_episode_config /\
       (lap_armed default_episode_state = true \/ lap_arm_fraction default_episode_config <= 1 / 2)) /\
    (Some Crash = Some Timeout ->
       timeout_s default_episode_config <=
       IZR (u32_saturating_add (ticks_in_episode default_episode_state) 1) * (1 / 60)) /\
    (Some Crash = None ->
       true = false /\
       IZR (u32_saturating_add (ticks_in_episode default_episode_state) 1) * (1 / 60) <
       timeout_s default_episode_config).
Proof.
  do 3 eexists.
  match goal with |- ?E = _ /\ _ => assert (H : E = (_, _, Some Crash, _)) by reflexivity end.
  split; [exact H|].
  exact (episode_loop_end_reason default_episode_config (1 / 60) (1 / 2) true default_episode_state
           default_moving_averages _ _ _ _ H).
Defined.

Lemma episode_loop_continue_tick :
  exists st' avg' reset_car,
    episode_loop default_episode_config (1 / 60) (1 / 10) false default_episode_state
      default_moving_averages = (st', avg', None, reset_car).
Proof.
  unfold episode_loop. cbv zeta.
  destruct (Rle_dec (lap_arm_fraction default_episode_config) (1 / 10)) as [Ha|Ha];
    [simpl in Ha; lra|].
  destruct (Rle_dec (timeout_s default_episode_config)
              (IZR (u32_saturating_add (ticks_in_episode default_episode_state) 1) * (1 / 60))) as [Ht|Ht];
    [vm_compute in Ht; lra|].
  do 3 eexists. reflexivity.
Qed.

Lemma episode_loop_continue_witness :
  exists st' avg' reset_car,
    episode_loop default_episode_config (1 / 60) (1 / 10) false default_episode_state
      default_moving_averages = (st', avg', None, reset_car) /\
    avg' = default_moving_averages /\ reset_car = false /\
    current_episode st' = current_episode default_episode_state /\
    ticks_in_episode st' = u32_saturating_add (ticks_in_episode default_episode_state) 1 /\
    previous_progress_fraction st' = 1 / 10 /\
    current_best_progress_fraction st' =
      Rmax (current_best_progress_fraction default_episode_state) (1 / 10) /\
    current_crashes st' = current_crashes default_episode_state /\
    last_end_reason st' = last_end_reason default_episode_state /\
    exists (delta : R) (k : Z),
      delta = 1 / 10 - previous_progress_fraction default_episode_state + IZR k /\
      -1/2 <= delta <= 1/2 /\
      current_return st' =
        current_return default_episode_state + delta * progress_reward_scale default_episode_config.
Proof.
  destruct episode_loop_continue_tick as (st' & avg' & reset_car & H).
  exists st', avg', reset_car. split; [exact H|].
  apply (episode_loop_continue default_episode_config (1 / 60) (1 / 10) false default_episode_state
           default_moving_averages st' avg' reset_car); [lra | simpl; lra | exact H].
Defined.

